(** * Debugging and introspection subsystem of the hive agent framework

    A shallow embedding of [core/framework/debug]: the breakpoint matcher of
    [debugger.py], the tool-call tracer of [tracer.py], the snapshot store of
    [inspector.py] and the graph renderer and path enumerator of
    [visualizer.py], with the properties the design document states about
    them.

    Python objects that are mutated in place and shared by reference are kept
    in explicit stores and named by their address; Python [int] is [Z];
    wall-clock readings ([time.time()], a float) are idealised as rationals
    [Q] and passed in by the caller of each operation. *)

From Stdlib Require Import ZArith QArith Qminmax Lia Sorted.
From stdpp Require Import gmap strings list.

Set Warnings "-register-all".

Local Open Scope Z_scope.
Local Open Scope string_scope.
Local Open Scope list_scope.

(** Truth value of an [Optional[str]] in a Python test: [None] and the empty
    string are false, every other string is true. *)
Definition str_truthy (s : option string) : bool :=
  match s with
  | None => false
  | Some s => negb (String.eqb s EmptyString)
  end.

(** ** debugger.py *)
Module Debugger.

Inductive BreakpointType : Type :=
| NODE_ENTER
| NODE_EXIT
| EDGE_TRAVERSE
| CONDITION_EVAL
| TOOL_CALL
| ERROR.

Definition value (t : BreakpointType) : string :=
  match t with
  | NODE_ENTER => "node_enter"
  | NODE_EXIT => "node_exit"
  | EDGE_TRAVERSE => "edge_traverse"
  | CONDITION_EVAL => "condition_eval"
  | TOOL_CALL => "tool_call"
  | ERROR => "error"
  end.

Record Breakpoint : Type := mkBreakpoint {
  id : string;
  breakpoint_type : BreakpointType;
  target : string;
  condition : option string;
  enabled : bool;
  hit_count : Z
}.

(** [breakpoint.hit_count += 1] *)
Definition hit (bp : Breakpoint) : Breakpoint :=
  {| id := id bp; breakpoint_type := breakpoint_type bp; target := target bp;
     condition := condition bp; enabled := enabled bp;
     hit_count := hit_count bp + 1 |}.

(** [f"{breakpoint_type.value}:{target}"] *)
Definition bp_id (ty : BreakpointType) (tgt : string) : string :=
  value ty +:+ ":" +:+ tgt.

(** What the guarded test [not eval(condition, {"context": context})] can
    do: produce a true or a false value, raise an [Exception] (caught by
    [except Exception]), or raise something that only derives from
    [BaseException] (not caught). *)
Inductive eval_outcome : Type :=
| Truthy
| Falsy
| RaisesException
| RaisesBaseException.

(** A call either returns or lets an exception escape to its caller. *)
Inductive outcome (A : Type) : Type :=
| Returns (a : A)
| Propagates.
Arguments Returns {A} a.
Arguments Propagates {A}.

Section Matching.
(** The execution context, and Python's [eval] on a condition string. *)
Context {Ctx : Type}.
Variable eval : string -> Ctx -> eval_outcome.

(** [AgentDebugger.set_breakpoint]: the dict entry is created or
    replaced. *)
Definition set_breakpoint (bps : gmap string Breakpoint) (tgt : string)
    (ty : BreakpointType) (cond : option string)
  : Breakpoint * gmap string Breakpoint :=
  let b := {| id := bp_id ty tgt; breakpoint_type := ty; target := tgt;
              condition := cond; enabled := true; hit_count := 0 |} in
  (b, <[bp_id ty tgt := b]> bps).

(** [AgentDebugger._should_break]: the returned flag and the breakpoint
    table after the call. *)
Definition _should_break (bps : gmap string Breakpoint)
    (ty : BreakpointType) (tgt : string) (context : Ctx)
  : outcome (bool * gmap string Breakpoint) :=
  match bps !! bp_id ty tgt with
  | None => Returns (false, bps)
  | Some breakpoint =>
      if negb (enabled breakpoint) then Returns (false, bps)
      else
        let fire := Returns (true, <[bp_id ty tgt := hit breakpoint]> bps) in
        if str_truthy (condition breakpoint) then
          match condition breakpoint with
          | Some c =>
              match eval c context with
              | Truthy => fire
              | Falsy => Returns (false, bps)
              | RaisesException => Returns (false, bps)
              | RaisesBaseException => Propagates
              end
          | None => fire
          end
        else fire
  end.

(** Hit counter of the breakpoint stored under an identity, if any. *)
Definition hits (bps : gmap string Breakpoint) (i : string) : option Z :=
  hit_count <$> bps !! i.

End Matching.

End Debugger.

(** ** Python values and the object store *)
Module Py.

(** Address of a mutable container. *)
Definition loc : Type := nat.

(** A value as a variable or a container slot holds it: an immutable
    scalar, or a reference to a container that lives in the store. *)
Inductive val : Type :=
| VNone
| VBool (b : bool)
| VInt (z : Z)
| VStr (s : string)
| VRef (l : loc).

(** A container: a [dict] with string keys (items in insertion order) or a
    [list]. *)
Inductive obj : Type :=
| ODict (items : list (string * val))
| OList (items : list val).

Definition store : Type := list obj.

#[global] Instance obj_inhabited : Inhabited obj := populate (ODict []).

(** A new object gets the next free address. *)
Definition alloc (h : store) (o : obj) : loc * store :=
  (List.length h, h ++ [o]).

(** [x.copy()] for a dict or a list: a new container holding the same
    slots, so contained references are shared with the original. *)
Definition copy (h : store) (l : loc) : loc * store :=
  alloc h (h !!! l).

(** In-place mutation of the container at [l]: its contents become [o]. *)
Definition mutate (h : store) (l : loc) (o : obj) : store :=
  <[l := o]> h.

(** [d[k] = v] on a list of dict items. *)
Fixpoint setitem (items : list (string * val)) (k : string) (v : val)
  : list (string * val) :=
  match items with
  | [] => [(k, v)]
  | (k', v') :: rest =>
      if String.eqb k' k then (k, v) :: rest else (k', v') :: setitem rest k v
  end.

(** [d[k] = v] on the dict at [l]. *)
Definition dict_setitem (h : store) (l : loc) (k : string) (v : val) : store :=
  match h !!! l with
  | ODict items => mutate h l (ODict (setitem items k v))
  | OList _ => h
  end.

(** [xs.append(v)] on the list at [l]. *)
Definition list_append (h : store) (l : loc) (v : val) : store :=
  match h !!! l with
  | OList items => mutate h l (OList (items ++ [v]))
  | ODict _ => h
  end.

(** The value a reference denotes, with every contained reference followed:
    what printing or comparing the value observes. *)
Inductive tree : Type :=
| TNone
| TBool (b : bool)
| TInt (z : Z)
| TStr (s : string)
| TDict (items : list (string * tree))
| TList (items : list tree)
| TDeep.

Fixpoint resolve (fuel : nat) (h : store) (v : val) : tree :=
  match v with
  | VNone => TNone
  | VBool b => TBool b
  | VInt z => TInt z
  | VStr s => TStr s
  | VRef l =>
      match fuel with
      | O => TDeep
      | S fuel' =>
          match h !!! l with
          | ODict items =>
              TDict (map (fun kv => (fst kv, resolve fuel' h (snd kv))) items)
          | OList items => TList (map (resolve fuel' h) items)
          end
      end
  end.

(** A value that is not a reference to a container. *)
Definition is_scalar (v : val) : bool :=
  match v with
  | VRef _ => false
  | _ => true
  end.

(** A series of in-place mutations, each giving one container new contents. *)
Definition mutate_all (h : store) (ms : list (loc * obj)) : store :=
  fold_left (fun h m => mutate h (fst m) (snd m)) ms h.

End Py.

(** ** tracer.py *)
Module Tracer.

(** Truth value of a float in a Python test: zero is false. *)
Definition float_truthy (q : Q) : bool := negb (Qeq_bool q 0).

Module ToolCall.
Record t : Type := mk {
  tool_name : string;
  arguments : Py.loc;
  start_time : Q;
  end_time : option Q;
  duration_ms : option Q;
  result : Py.val;
  error : option string;
  status : string;
  call_stack_depth : Z
}.
#[global] Instance inhabited : Inhabited t :=
  populate (mk EmptyString 0%nat 0%Q None None Py.VNone None "pending" 0).
End ToolCall.

Module ExecutionTrace.
Record t : Type := mk {
  trace_id : string;
  start_time : Q;
  end_time : option Q;
  node_sequence : list string;
  tool_calls : list nat;
  edge_traversals : list (string * string * string * string * Q);
  total_duration_ms : option Q
}.
#[global] Instance inhabited : Inhabited t :=
  populate (mk EmptyString 0%Q None [] [] [] None).
End ExecutionTrace.

(** The fields of a [ToolCallTracer].  [ToolCall] and [ExecutionTrace]
    objects are shared between the tracer's lists, the traces and the
    caller, so the lists hold addresses into the stores of [World]. *)
Record ToolCallTracer : Type := mkTracer {
  enable_timing : bool;
  current_trace : option nat;
  traces : list nat;
  active_tool_calls : list nat;
  call_stack_depth : Z
}.

Record World : Type := mkWorld {
  objs : Py.store;
  calls : list ToolCall.t;
  trace_objs : list ExecutionTrace.t;
  tracer : ToolCallTracer
}.

(** [ToolCallTracer.__init__] *)
Definition init (enable_timing : bool) : ToolCallTracer :=
  mkTracer enable_timing None [] [] 0.

(** [self.call_stack_depth] *)
Definition depth (w : World) : Z := call_stack_depth (tracer w).

Definition with_tracer (w : World) (t : ToolCallTracer) : World :=
  mkWorld (objs w) (calls w) (trace_objs w) t.

(** [ToolCallTracer.start_trace] *)
Definition start_trace (w : World) (trace_id : string) (now : Q) : nat * World :=
  let trace := ExecutionTrace.mk trace_id now None [] [] [] None in
  let r := List.length (trace_objs w) in
  let t := tracer w in
  (r, mkWorld (objs w) (calls w) (trace_objs w ++ [trace])
        (mkTracer (enable_timing t) (Some r) (traces t ++ [r])
           (active_tool_calls t) (call_stack_depth t))).

(** [ToolCallTracer.end_trace] *)
Definition end_trace (w : World) (now : Q) : option nat * World :=
  let t := tracer w in
  match current_trace t with
  | None => (None, w)
  | Some r =>
      let tr := trace_objs w !!! r in
      let dur :=
        if float_truthy (ExecutionTrace.start_time tr)
        then Some ((now - ExecutionTrace.start_time tr) * 1000)%Q
        else ExecutionTrace.total_duration_ms tr in
      let tr' :=
        ExecutionTrace.mk (ExecutionTrace.trace_id tr)
          (ExecutionTrace.start_time tr) (Some now)
          (ExecutionTrace.node_sequence tr) (ExecutionTrace.tool_calls tr)
          (ExecutionTrace.edge_traversals tr) dur in
      (Some r, mkWorld (objs w) (calls w) (<[r := tr']> (trace_objs w))
                 (mkTracer (enable_timing t) None (traces t)
                    (active_tool_calls t) (call_stack_depth t)))
  end.

(** [self.current_trace.tool_calls.append(tool_call)] *)
Definition trace_append_call (trs : list ExecutionTrace.t) (r c : nat)
  : list ExecutionTrace.t :=
  let tr := trs !!! r in
  <[r := ExecutionTrace.mk (ExecutionTrace.trace_id tr)
           (ExecutionTrace.start_time tr) (ExecutionTrace.end_time tr)
           (ExecutionTrace.node_sequence tr)
           (ExecutionTrace.tool_calls tr ++ [c])
           (ExecutionTrace.edge_traversals tr)
           (ExecutionTrace.total_duration_ms tr)]> trs.

(** [ToolCallTracer.start_tool_call]: the address of the new record and the
    world after the call. *)
Definition start_tool_call (w : World) (tool_name : string)
    (arguments : Py.loc) (now : Q) : nat * World :=
  let t := tracer w in
  let '(a, objs') := Py.copy (objs w) arguments in
  let tool_call :=
    ToolCall.mk tool_name a now None None Py.VNone None "pending"
      (call_stack_depth t) in
  let c := List.length (calls w) in
  let trs :=
    match current_trace t with
    | Some r => trace_append_call (trace_objs w) r c
    | None => trace_objs w
    end in
  (c, mkWorld objs' (calls w ++ [tool_call]) trs
        (mkTracer (enable_timing t) (current_trace t) (traces t)
           (active_tool_calls t ++ [c]) (call_stack_depth t + 1))).

Section Equality.
(** Python's [==] on two field values, as the interpreter computes it on
    the current store. *)
Variable py_eq : Py.store -> Py.val -> Py.val -> bool.

Definition opt_Q_eq (a b : option Q) : bool :=
  match a, b with
  | None, None => true
  | Some x, Some y => Qeq_bool x y
  | _, _ => false
  end.

Definition opt_str_eq (a b : option string) : bool :=
  match a, b with
  | None, None => true
  | Some x, Some y => String.eqb x y
  | _, _ => false
  end.

(** The [__eq__] that [@dataclass] generates for [ToolCall]: the tuples of
    fields are compared in declaration order. *)
Definition ToolCall_eq (h : Py.store) (x y : ToolCall.t) : bool :=
  String.eqb (ToolCall.tool_name x) (ToolCall.tool_name y)
  && py_eq h (Py.VRef (ToolCall.arguments x)) (Py.VRef (ToolCall.arguments y))
  && Qeq_bool (ToolCall.start_time x) (ToolCall.start_time y)
  && opt_Q_eq (ToolCall.end_time x) (ToolCall.end_time y)
  && opt_Q_eq (ToolCall.duration_ms x) (ToolCall.duration_ms y)
  && py_eq h (ToolCall.result x) (ToolCall.result y)
  && opt_str_eq (ToolCall.error x) (ToolCall.error y)
  && String.eqb (ToolCall.status x) (ToolCall.status y)
  && Z.eqb (ToolCall.call_stack_depth x) (ToolCall.call_stack_depth y).

(** The test a list applies to each element in [in] and [remove]: the
    same object, or an equal one. *)
Definition same (h : Py.store) (cs : list ToolCall.t) (x c : nat) : bool :=
  Nat.eqb x c || ToolCall_eq h (cs !!! x) (cs !!! c).

(** [tool_call in active] *)
Definition contains (h : Py.store) (cs : list ToolCall.t)
    (active : list nat) (c : nat) : bool :=
  existsb (fun x => same h cs x c) active.

(** [active.remove(tool_call)]: the first matching element goes. *)
Fixpoint remove (h : Py.store) (cs : list ToolCall.t)
    (active : list nat) (c : nat) : list nat :=
  match active with
  | [] => []
  | x :: rest => if same h cs x c then rest else x :: remove h cs rest c
  end.

(** [ToolCallTracer.end_tool_call] *)
Definition end_tool_call (w : World) (c : nat) (result : Py.val)
    (error : option string) (now : Q) : World :=
  let t := tracer w in
  let tc := calls w !!! c in
  let dur :=
    if float_truthy (ToolCall.start_time tc) && float_truthy now
    then Some ((now - ToolCall.start_time tc) * 1000)%Q
    else ToolCall.duration_ms tc in
  let tc' :=
    if str_truthy error
    then ToolCall.mk (ToolCall.tool_name tc) (ToolCall.arguments tc)
           (ToolCall.start_time tc) (Some now) dur (ToolCall.result tc)
           error "failed" (ToolCall.call_stack_depth tc)
    else ToolCall.mk (ToolCall.tool_name tc) (ToolCall.arguments tc)
           (ToolCall.start_time tc) (Some now) dur result
           (ToolCall.error tc) "success" (ToolCall.call_stack_depth tc) in
  let cs := <[c := tc']> (calls w) in
  let active :=
    if contains (objs w) cs (active_tool_calls t) c
    then remove (objs w) cs (active_tool_calls t) c
    else active_tool_calls t in
  mkWorld (objs w) cs (trace_objs w)
    (mkTracer (enable_timing t) (current_trace t) (traces t) active
       (Z.max 0 (call_stack_depth t - 1))).

End Equality.

(** [ToolCallTracer.clear_traces] *)
Definition clear_traces (w : World) : World :=
  with_tracer w (mkTracer (enable_timing (tracer w)) None [] [] 0).

Module Timing.
Record t : Type := mk {
  total_ms : Q;
  average_ms : Q;
  min_ms : Q;
  max_ms : Q
}.
End Timing.

Module ToolStat.
Record t : Type := mk {
  count : Z;
  success : Z;
  failed : Z;
  total_duration_ms : Q
}.
End ToolStat.

Module Stats.
Record t : Type := mk {
  total_calls : Z;
  successful : Z;
  failed : Z;
  tools_used : gset string;
  timing : option Timing.t;
  by_tool : gmap string ToolStat.t
}.
End Stats.

(** [sum(durations)], [min(durations)], [max(durations)] *)
Definition sum (qs : list Q) : Q := fold_left Qplus qs 0%Q.

Definition minimum (q : Q) (qs : list Q) : Q := fold_left Qmin qs q.

Definition maximum (q : Q) (qs : list Q) : Q := fold_left Qmax qs q.

(** One turn of the per-tool loop of [get_tool_call_stats]. *)
Definition tally (tool_stats : gmap string ToolStat.t) (tc : ToolCall.t)
  : gmap string ToolStat.t :=
  let s := default (ToolStat.mk 0 0 0 0%Q) (tool_stats !! ToolCall.tool_name tc) in
  let ok := String.eqb (ToolCall.status tc) "success" in
  let ko := negb ok && String.eqb (ToolCall.status tc) "failed" in
  let d :=
    match ToolCall.duration_ms tc with
    | Some q => if float_truthy q then (ToolStat.total_duration_ms s + q)%Q
                else ToolStat.total_duration_ms s
    | None => ToolStat.total_duration_ms s
    end in
  <[ToolCall.tool_name tc :=
      ToolStat.mk (ToolStat.count s + 1)
        (if ok then ToolStat.success s + 1 else ToolStat.success s)
        (if ko then ToolStat.failed s + 1 else ToolStat.failed s) d]> tool_stats.

(** [ToolCallTracer.get_tool_call_stats]: the error payload when no trace is
    open, the statistics of the open trace otherwise. *)
Definition get_tool_call_stats (w : World) : string + Stats.t :=
  match current_trace (tracer w) with
  | None => inl "No active trace"
  | Some r =>
      let tool_calls :=
        map (fun c => calls w !!! c)
          (ExecutionTrace.tool_calls (trace_objs w !!! r)) in
      let successful :=
        filter (fun tc => ToolCall.status tc = "success") tool_calls in
      let failed :=
        filter (fun tc => ToolCall.status tc = "failed") tool_calls in
      let durations := omap ToolCall.duration_ms tool_calls in
      let timing :=
        match durations with
        | [] => None
        | q :: qs =>
            Some (Timing.mk (sum durations)
                    (sum durations / inject_Z (Z.of_nat (List.length durations)))%Q
                    (minimum q qs) (maximum q qs))
        end in
      inr (Stats.mk (Z.of_nat (List.length tool_calls))
             (Z.of_nat (List.length successful))
             (Z.of_nat (List.length failed))
             (list_to_set (map ToolCall.tool_name tool_calls))
             timing
             (fold_left tally tool_calls ∅))
  end.

(** *** Histories of tool calls *)

(** The two instrumentation hooks a run fires, with their arguments and the
    clock reading at the time. *)
Inductive event : Type :=
| Start (tool_name : string) (arguments : Py.loc) (now : Q)
| End (c : nat) (result : Py.val) (error : option string) (now : Q).

Section Histories.
Variable py_eq : Py.store -> Py.val -> Py.val -> bool.

Definition step (w : World) (ev : event) : World :=
  match ev with
  | Start tool_name arguments now =>
      snd (start_tool_call w tool_name arguments now)
  | End c result error now => end_tool_call py_eq w c result error now
  end.

Definition run (w : World) (evs : list event) : World :=
  fold_left step evs w.

(** The events between the start and the end of call [c]: every call
    that is ended exists and is not [c] itself. *)
Fixpoint between (c : nat) (w : World) (evs : list event) : bool :=
  match evs with
  | [] => true
  | ev :: rest =>
      match ev with
      | Start _ _ _ => true
      | End c' _ _ _ =>
          (c' <? List.length (calls w))%nat && negb (Nat.eqb c' c)
      end && between c (step w ev) rest
  end.
End Histories.

(** A sequence of starts and ends is well nested when every end closes a
    call that is open and no call is left open: [opened] counts the calls
    open so far. *)
Fixpoint well_nested_from (opened : nat) (evs : list event) : bool :=
  match evs with
  | [] => Nat.eqb opened 0
  | Start _ _ _ :: rest => well_nested_from (S opened) rest
  | End _ _ _ _ :: rest =>
      match opened with
      | O => false
      | S n => well_nested_from n rest
      end
  end.

Definition well_nested (evs : list event) : bool := well_nested_from 0 evs.

(** A tracer as [ToolCallTracer()] leaves it, next to whatever objects the
    program already holds. *)
Definition fresh (objs : Py.store) (calls : list ToolCall.t)
    (enable_timing : bool) : World :=
  mkWorld objs calls [] (init enable_timing).

(** What the hooks keep true of a tracer: the active calls exist, are
    listed once and have not been ended; the open trace exists; every
    trace lists existing calls, each once. *)
Record consistent (w : World) : Prop := mkConsistent {
  active_valid :
    Forall (fun x => (x < List.length (calls w))%nat
                     /\ ToolCall.end_time (calls w !!! x) = None)
      (active_tool_calls (tracer w));
  active_nodup : NoDup (active_tool_calls (tracer w));
  current_valid :
    forall r, current_trace (tracer w) = Some r ->
              (r < List.length (trace_objs w))%nat;
  traces_valid :
    Forall (fun tr => Forall (fun x => (x < List.length (calls w))%nat)
                        (ExecutionTrace.tool_calls tr)
                      /\ NoDup (ExecutionTrace.tool_calls tr))
      (trace_objs w)
}.

(** Call [c], started at [t0] while [cur] was the open trace, has not been
    ended: it is active and pending, and the open trace lists it. *)
Record open_call (c : nat) (t0 : Q) (cur : option nat) (w : World) : Prop :=
  mkOpenCall {
    open_consistent : consistent w;
    open_valid : (c < List.length (calls w))%nat;
    open_active : c ∈ active_tool_calls (tracer w);
    open_status : ToolCall.status (calls w !!! c) = "pending";
    open_start : ToolCall.start_time (calls w !!! c) = t0;
    open_current : current_trace (tracer w) = cur;
    open_traced :
      forall r, cur = Some r ->
                c ∈ ExecutionTrace.tool_calls (trace_objs w !!! r)
  }.

End Tracer.


(** ** inspector.py: StateInspector *)
Module Inspector.

(** The dict [take_snapshot] builds. *)
Record Snapshot : Type := mkSnapshot {
  step : Z;
  node_id : string;
  timestamp : string;
  context_keys : list string;
  context_preview : list (string * string)
}.

Section StateInspector.
(** Context values, and [_preview_value] on them. *)
Context {V : Type}.
Variable _preview_value : V -> string.

(** [StateInspector.take_snapshot]; [now] is what [_get_timestamp]
    returns.  The snapshot is appended to [self.snapshots]. *)
Definition take_snapshot (snapshots : list Snapshot) (step : Z)
    (node_id : string) (context : list (string * V)) (now : string)
  : Snapshot * list Snapshot :=
  let snapshot :=
    {| step := step; node_id := node_id; timestamp := now;
       context_keys := map fst context;
       context_preview :=
         map (fun kv => (fst kv, _preview_value (snd kv))) context |} in
  (snapshot, snapshots ++ [snapshot]).

(** The arguments of one [take_snapshot] call and the clock reading. *)
Record request : Type := mkRequest {
  req_step : Z;
  req_node_id : string;
  req_context : list (string * V);
  req_now : string
}.

(** A series of [take_snapshot] calls on one inspector. *)
Definition take_snapshots (snapshots : list Snapshot) (reqs : list request)
  : list Snapshot :=
  fold_left
    (fun snaps r =>
       snd (take_snapshot snaps (req_step r) (req_node_id r)
              (req_context r) (req_now r)))
    reqs snapshots.
End StateInspector.

(** [StateInspector.get_snapshot] *)
Fixpoint get_snapshot (snapshots : list Snapshot) (s : Z) : option Snapshot :=
  match snapshots with
  | [] => None
  | snapshot :: rest =>
      if Z.eqb (step snapshot) s then Some snapshot else get_snapshot rest s
  end.

Record Diff : Type := mkDiff {
  added_keys : list string;
  removed_keys : list string;
  common_keys : list string;
  step_diff : Z
}.

(** [StateInspector.compare_snapshots]: the error payload or the
    differences.  A list made from a Python set lists its elements once,
    in an order the set chooses. *)
Definition compare_snapshots (snapshots : list Snapshot) (step1 step2 : Z)
  : string + Diff :=
  match get_snapshot snapshots step1, get_snapshot snapshots step2 with
  | Some snap1, Some snap2 =>
      let keys1 : gset string := list_to_set (context_keys snap1) in
      let keys2 : gset string := list_to_set (context_keys snap2) in
      inr {| added_keys := elements (keys2 ∖ keys1);
             removed_keys := elements (keys1 ∖ keys2);
             common_keys := elements (keys1 ∩ keys2);
             step_diff := step2 - step1 |}
  | _, _ => inl "One or both snapshots not found"
  end.

End Inspector.

(** ** visualizer.py: GraphVisualizer *)
Module Visualizer.

(** Modelled from the spec: the [EdgeCondition] enum of [framework.graph]
    is not among the sources.  Its members are the two the example agents
    and the rendering scenario use, and their values are the condition tags
    as the design document writes them. *)
Inductive EdgeCondition : Type :=
| ON_SUCCESS
| CONDITIONAL.

(** Modelled from the spec: the [value] of each member of the missing enum,
    the condition tag the design document shows for it. *)
Definition value (c : EdgeCondition) : string :=
  match c with
  | ON_SUCCESS => "on_success"
  | CONDITIONAL => "conditional"
  end.

(** What an edge carries as its condition: an enum member, or (the
    renderers test [hasattr(edge.condition, 'value')]) a plain string. *)
Inductive condition_tag : Type :=
| Member (c : EdgeCondition)
| Plain (s : string).

Record NodeSpec : Type := mkNode {
  node_id : string;
  name : string;
  node_type : string
}.

Record EdgeSpec : Type := mkEdge {
  id : string;
  source : string;
  target : string;
  condition : condition_tag;
  condition_expr : option string
}.

Record GraphSpec : Type := mkGraph {
  nodes : list NodeSpec;
  edges : list EdgeSpec;
  entry_point : string
}.

Definition nl : string := String (Ascii.ascii_of_nat 10) EmptyString.
Definition dq : string := String (Ascii.ascii_of_nat 34) EmptyString.

(** [sep.join(parts)] *)
Fixpoint join (sep : string) (parts : list string) : string :=
  match parts with
  | [] => EmptyString
  | [p] => p
  | p :: rest => p +:+ sep +:+ join sep rest
  end.

(** [needle in haystack] on strings *)
Fixpoint str_in (needle haystack : string) : bool :=
  String.prefix needle haystack ||
  match haystack with
  | EmptyString => false
  | String _ rest => str_in needle rest
  end.

(** [edge.condition.value if hasattr(edge.condition, 'value') else
    str(edge.condition)] *)
Definition condition_text (e : EdgeSpec) : string :=
  match condition e with
  | Member c => value c
  | Plain s => s
  end.

(** ['label="{}"'.format(label)] *)
Definition label_attr (label : string) : string :=
  "label=" +:+ dq +:+ label +:+ dq.

(** The line [render_dot] emits for a node. *)
Definition dot_node (g : GraphSpec) (n : NodeSpec) : string :=
  let label := name n +:+ "\n(" +:+ node_type n +:+ ")" in
  let attrs :=
    [label_attr label] ++
    (if String.eqb (node_id n) (entry_point g)
     then ["style=" +:+ dq +:+ "rounded,bold" +:+ dq;
           "color=" +:+ dq +:+ "blue" +:+ dq]
     else []) in
  "    " +:+ node_id n +:+ " [" +:+ join ", " attrs +:+ "];".

(** The attribute list [render_dot] builds for an edge. *)
Definition dot_edge_attrs (e : EdgeSpec) : list string :=
  let condition := condition_text e in
  let label :=
    if str_truthy (condition_expr e)
    then condition +:+ "\n" +:+ default EmptyString (condition_expr e)
    else condition in
  [label_attr label] ++
  (if str_in "CONDITIONAL" condition
   then ["style=" +:+ dq +:+ "dashed" +:+ dq]
   else []).

(** The line [render_dot] emits for an edge. *)
Definition dot_edge (e : EdgeSpec) : string :=
  "    " +:+ source e +:+ " -> " +:+ target e +:+ " [" +:+
  join ", " (dot_edge_attrs e) +:+ "];".

(** [GraphVisualizer.render_dot] *)
Definition render_dot (g : GraphSpec) : string :=
  join nl
    (["digraph Agent {"; "    rankdir=TD;";
      "    node [shape=box, style=rounded];"; EmptyString]
     ++ map (dot_node g) (nodes g)
     ++ [EmptyString]
     ++ map dot_edge (edges g)
     ++ ["}"]).

(** [[e for e in self.graph.edges if e.source == current]] *)
Definition outgoing (g : GraphSpec) (current : string) : list EdgeSpec :=
  filter (fun e => source e = current) (edges g).

(** How a call ends: it returns a value, or the interpreter raises
    [RecursionError] because calls are nested deeper than it allows. *)
Inductive result (A : Type) : Type :=
| Returned (a : A)
| RecursionError.
Arguments Returned {A} a.
Arguments RecursionError {A}.

(** The inner [dfs] of [find_execution_paths], threading the [paths] list
    it appends to.  Every call of [dfs] takes a frame of the interpreter's
    stack and [frames] is the number of nested calls of [dfs] the
    interpreter still allows: with none left the call raises
    [RecursionError], which ends the loop over the edges and the callers.
    The list comprehension is taken to run in the frame of [dfs]. *)
Fixpoint dfs (frames : nat) (g : GraphSpec) (max_depth : Z) (current : string)
    (path : list string) (depth : Z) (paths : list (list string))
  : result (list (list string)) :=
  match frames with
  | O => RecursionError
  | S frames' =>
      if depth >? max_depth then Returned paths
      else
        let path := path ++ [current] in
        match outgoing g current with
        | [] => Returned (paths ++ [path])
        | out =>
            fold_left
              (fun acc edge =>
                 match acc with
                 | Returned ps =>
                     dfs frames' g max_depth (target edge) path (depth + 1) ps
                 | RecursionError => RecursionError
                 end)
              out (Returned paths)
        end
  end.

(** One turn of the loop [for edge in outgoing: dfs(edge.target, path,
    depth + 1)], from the outcome of the turns before it. *)
Definition visit (frames : nat) (g : GraphSpec) (max_depth : Z)
    (path : list string) (depth : Z) (acc : result (list (list string)))
    (edge : EdgeSpec) : result (list (list string)) :=
  match acc with
  | Returned ps => dfs frames g max_depth (target edge) path depth ps
  | RecursionError => RecursionError
  end.

(** [start_node or self.graph.entry_point] *)
Definition start_of (g : GraphSpec) (start_node : option string) : string :=
  if str_truthy start_node then default (entry_point g) start_node
  else entry_point g.

(** [GraphVisualizer.find_execution_paths], called where the interpreter
    allows [frames] nested calls of [dfs]. *)
Definition find_execution_paths (frames : nat) (g : GraphSpec)
    (start_node : option string) (max_depth : Z)
  : result (list (list string)) :=
  dfs frames g max_depth (start_of g start_node) [] 0 [].

(** *** Paths of the graph *)

(** Some edge leads from [a] to [b]. *)
Definition linked (g : GraphSpec) (a b : string) : Prop :=
  exists e, e ∈ edges g /\ source e = a /\ target e = b.

(** A node without outgoing edges. *)
Definition terminal (g : GraphSpec) (n : string) : Prop :=
  outgoing g n = [].

(** Consecutive nodes of [p] are joined by an edge. *)
Fixpoint walk (g : GraphSpec) (p : list string) : Prop :=
  match p with
  | [] => True
  | a :: rest =>
      match rest with
      | [] => True
      | b :: _ => linked g a b /\ walk g rest
      end
  end.

(** A walk from [start] to a terminal node. *)
Definition terminal_path (g : GraphSpec) (start : string) (p : list string)
  : Prop :=
  head p = Some start /\ walk g p /\ exists n, last p = Some n /\ terminal g n.

(** No walk of the graph visits a node twice. *)
Definition acyclic (g : GraphSpec) : Prop :=
  forall p, walk g p -> NoDup p.

End Visualizer.

(** ** debugger.py: the rest of AgentDebugger *)
Module AgentDebugger.
Import Debugger.

(** [AgentDebugger.remove_breakpoint]: the returned flag and the table after
    the call. *)
Definition remove_breakpoint (bps : gmap string Breakpoint) (bp_id : string)
  : bool * gmap string Breakpoint :=
  match bps !! bp_id with
  | Some _ => (true, delete bp_id bps)
  | None => (false, bps)
  end.

(** [bp.hit_count = 0] *)
Definition zero_hits (bp : Breakpoint) : Breakpoint :=
  {| id := id bp; breakpoint_type := breakpoint_type bp; target := target bp;
     condition := condition bp; enabled := enabled bp; hit_count := 0 |}.

Section Session.
(** The execution context (a dict), the empty dict, and the entries of the
    trace history. *)
Context {Ctx Entry : Type}.
Variable empty_context : Ctx.

Record DebugState : Type := mkDebugState {
  current_node : option string;
  current_edge : option string;
  context : Ctx;
  step_count : Z;
  tool_calls : list Entry;
  errors : list Entry;
  paused : bool
}.

(** [DebugState()] *)
Definition new_state : DebugState :=
  mkDebugState None None empty_context 0 [] [] false.

(** The fields of an [AgentDebugger]; [on_breakpoint_hit] tells whether the
    callback is set. *)
Record t : Type := mk {
  interactive : bool;
  breakpoints : gmap string Breakpoint;
  state : DebugState;
  step_mode : bool;
  trace_history : list Entry;
  on_breakpoint_hit : bool
}.

(** [AgentDebugger.__init__] *)
Definition init (interactive : bool) : t :=
  mk interactive ∅ new_state false [] false.

(** [AgentDebugger.enable_step_mode] and [disable_step_mode] *)
Definition enable_step_mode (d : t) : t :=
  mk (interactive d) (breakpoints d) (state d) true (trace_history d)
    (on_breakpoint_hit d).

Definition disable_step_mode (d : t) : t :=
  mk (interactive d) (breakpoints d) (state d) false (trace_history d)
    (on_breakpoint_hit d).

(** [AgentDebugger.reset] *)
Definition reset (d : t) : t :=
  mk (interactive d) (zero_hits <$> breakpoints d) new_state (step_mode d) []
    (on_breakpoint_hit d).

End Session.

End AgentDebugger.

(** * Concrete inputs *)

Definition demo_breakpoints : gmap string Debugger.Breakpoint :=
  {[ "node_enter:B" :=
       Debugger.mkBreakpoint "node_enter:B" Debugger.NODE_ENTER "B" None true 4;
     "tool_call:search" :=
       Debugger.mkBreakpoint "tool_call:search" Debugger.TOOL_CALL "search"
         (Some "context['n'] > 0") true 2;
     "node_exit:B" :=
       Debugger.mkBreakpoint "node_exit:B" Debugger.NODE_EXIT "B" None false 0 ]}.

(** A store with the arguments [{"q": [1]}] of a call: the dict at address 0
    holds a reference to the list at address 1. *)
Definition demo_store : Py.store :=
  [Py.ODict [("q", Py.VRef 1%nat)]; Py.OList [Py.VInt 1]].

(** An equality on field values that compares scalars by value and
    containers by address. *)
Definition demo_eq (h : Py.store) (a b : Py.val) : bool :=
  match a, b with
  | Py.VNone, Py.VNone => true
  | Py.VBool x, Py.VBool y => Bool.eqb x y
  | Py.VInt x, Py.VInt y => Z.eqb x y
  | Py.VStr x, Py.VStr y => String.eqb x y
  | Py.VRef x, Py.VRef y => Nat.eqb x y
  | _, _ => false
  end.

(** A new tracer on which the trace "run-1" was started at time 10. *)
Definition demo_world : Tracer.World :=
  snd (Tracer.start_trace (Tracer.fresh demo_store [] true) "run-1" 10).

(** A call "fetch" started and ended inside another call. *)
Definition demo_inner : list Tracer.event :=
  [Tracer.Start "fetch" 0%nat 12; Tracer.End 1%nat (Py.VInt 7) None 13].

(** The rendering scenario: [A -> B] on success, [B -> C] when [x>0]. *)
Definition demo_graph : Visualizer.GraphSpec :=
  Visualizer.mkGraph
    [Visualizer.mkNode "A" "Start" "llm";
     Visualizer.mkNode "B" "Work" "function";
     Visualizer.mkNode "C" "Finish" "function"]
    [Visualizer.mkEdge "e1" "A" "B" (Visualizer.Member Visualizer.ON_SUCCESS) None;
     Visualizer.mkEdge "e2" "B" "C" (Visualizer.Member Visualizer.CONDITIONAL)
       (Some "x>0")]
    "A".

(** The scenario with a retry edge [B -> A] added: a graph with one cycle. *)
Definition demo_cyclic : Visualizer.GraphSpec :=
  Visualizer.mkGraph (Visualizer.nodes demo_graph)
    (Visualizer.edges demo_graph
     ++ [Visualizer.mkEdge "e3" "B" "A" (Visualizer.Plain "on_failure") None])
    "A".

(** An interactive debugger with the demo breakpoints. *)
Definition demo_debugger : AgentDebugger.t (Ctx := list string) (Entry := string) :=
  AgentDebugger.mk true demo_breakpoints
    (AgentDebugger.mkDebugState (Some "B") None ["n"] 3 [] [] false)
    false ["enter A"; "enter B"] true.

(** One node with an edge to itself. *)
Definition demo_loop : Visualizer.GraphSpec :=
  Visualizer.mkGraph [Visualizer.mkNode "A" "Again" "function"]
    [Visualizer.mkEdge "e1" "A" "A" (Visualizer.Member Visualizer.ON_SUCCESS) None]
    "A".

(** * Properties *)

(** ** Breakpoint matching *)

Section DebuggerFacts.
Import Debugger.
Context {Ctx : Type}.
Variable eval : string -> Ctx -> eval_outcome.

Lemma should_break_fires bps ty tgt (context : Ctx) bp :
  bps !! bp_id ty tgt = Some bp ->
  enabled bp = true ->
  str_truthy (condition bp) = false ->
  _should_break eval bps ty tgt context
  = Returns (true, <[bp_id ty tgt := hit bp]> bps).
Proof.
  intros Hbp Hen Hc. unfold _should_break.
  rewrite Hbp, Hen, Hc. reflexivity.
Qed.

Lemma hits_after_fire bps i bp :
  hits (<[i := hit bp]> bps) i = Some (hit_count bp + 1).
Proof. unfold hits. rewrite lookup_insert_eq. reflexivity. Qed.

(** C2: a breakpoint set with no condition and enabled makes every
    [_should_break] call on its (event kind, target) pair return true and
    adds exactly 1 to its hit counter, leaving it unconditional and enabled
    for the next call and every other breakpoint as it was; this is the
    state [set_breakpoint] without a condition creates.  The call returns
    false and changes no counter when no breakpoint has that identity or
    when the one that has it is disabled. *)
Theorem C2_should_break_unconditional
    (bps : gmap string Breakpoint) (ty : BreakpointType) (tgt : string)
    (context : Ctx) :
  (forall bp,
      bps !! bp_id ty tgt = Some bp ->
      condition bp = None ->
      enabled bp = true ->
      exists bps',
        _should_break eval bps ty tgt context = Returns (true, bps')
        /\ hits bps' (bp_id ty tgt) = Some (hit_count bp + 1)
        /\ (forall i, i <> bp_id ty tgt -> bps' !! i = bps !! i)
        /\ (exists bp', bps' !! bp_id ty tgt = Some bp'
                        /\ condition bp' = None /\ enabled bp' = true))
  /\ (exists bps',
        _should_break eval (snd (set_breakpoint bps tgt ty None)) ty tgt context
        = Returns (true, bps')
        /\ hits bps' (bp_id ty tgt) = Some 1)
  /\ (bps !! bp_id ty tgt = None ->
      _should_break eval bps ty tgt context = Returns (false, bps))
  /\ (forall bp,
        bps !! bp_id ty tgt = Some bp ->
        enabled bp = false ->
        _should_break eval bps ty tgt context = Returns (false, bps)).
Proof.
  repeat split.
  - intros bp Hbp Hc Hen.
    exists (<[bp_id ty tgt := hit bp]> bps). repeat split.
    + apply should_break_fires; [assumption .. | now rewrite Hc].
    + apply hits_after_fire.
    + intros i Hi. now rewrite lookup_insert_ne.
    + exists (hit bp). rewrite lookup_insert_eq. auto.
  - eexists. split.
    + apply should_break_fires; simpl;
        [apply lookup_insert_eq | reflexivity | reflexivity].
    + simpl. rewrite hits_after_fire. reflexivity.
  - intros Hnone. unfold _should_break. now rewrite Hnone.
  - intros bp Hbp Hen. unfold _should_break. now rewrite Hbp, Hen.
Qed.

(** C5: when the condition of a breakpoint raises an error while it is
    evaluated, [_should_break] returns false: nothing escapes to the caller
    and no hit counter moves.  A condition that evaluates to a false value
    gives false as well, with every counter unchanged.  (A condition is
    evaluated when it is a non-empty string.) *)
Theorem C5_condition_failure_is_no_match
    (bps : gmap string Breakpoint) (ty : BreakpointType) (tgt : string)
    (context : Ctx) (bp : Breakpoint) (c : string) :
  bps !! bp_id ty tgt = Some bp ->
  condition bp = Some c ->
  c <> EmptyString ->
  eval c context = RaisesException \/ eval c context = Falsy ->
  _should_break eval bps ty tgt context = Returns (false, bps)
  /\ hits bps (bp_id ty tgt) = Some (hit_count bp).
Proof.
  intros Hbp Hc Hne Hev. split.
  - unfold _should_break. rewrite Hbp, Hc.
    destruct (enabled bp); simpl; [| reflexivity].
    apply String.eqb_neq in Hne. rewrite Hne. simpl.
    destruct Hev as [-> | ->]; reflexivity.
  - unfold hits. now rewrite Hbp.
Qed.

(** What [except Exception] does not catch leaves [_should_break] as an
    exception. *)
Lemma should_break_lets_exits_through bps ty tgt (context : Ctx) bp c :
  bps !! bp_id ty tgt = Some bp ->
  enabled bp = true ->
  condition bp = Some c ->
  c <> EmptyString ->
  eval c context = RaisesBaseException ->
  _should_break eval bps ty tgt context = Propagates.
Proof.
  intros Hbp Hen Hc Hne Hev. unfold _should_break.
  rewrite Hbp, Hen, Hc. simpl.
  apply String.eqb_neq in Hne. rewrite Hne. simpl. now rewrite Hev.
Qed.

End DebuggerFacts.

Lemma C2_should_break_unconditional_witness :
  (exists bps',
      Debugger._should_break (fun _ (_ : unit) => Debugger.Truthy)
        demo_breakpoints Debugger.NODE_ENTER "B" tt
      = Debugger.Returns (true, bps')
      /\ Debugger.hits bps' "node_enter:B" = Some 5)
  /\ Debugger._should_break (fun _ (_ : unit) => Debugger.Truthy)
       demo_breakpoints Debugger.NODE_ENTER "C" tt
     = Debugger.Returns (false, demo_breakpoints)
  /\ Debugger._should_break (fun _ (_ : unit) => Debugger.Truthy)
       demo_breakpoints Debugger.NODE_EXIT "B" tt
     = Debugger.Returns (false, demo_breakpoints).
Proof.
  split; [| split].
  - destruct (C2_should_break_unconditional (fun _ (_ : unit) => Debugger.Truthy)
                demo_breakpoints Debugger.NODE_ENTER "B" tt) as (H & _).
    destruct (H (Debugger.mkBreakpoint "node_enter:B" Debugger.NODE_ENTER "B"
                   None true 4))
      as (bps' & Hr & Hh & _); [vm_compute; reflexivity | reflexivity ..|].
    exists bps'. split; [exact Hr | exact Hh].
  - destruct (C2_should_break_unconditional (fun _ (_ : unit) => Debugger.Truthy)
                demo_breakpoints Debugger.NODE_ENTER "C" tt) as (_ & _ & H & _).
    apply H. vm_compute. reflexivity.
  - destruct (C2_should_break_unconditional (fun _ (_ : unit) => Debugger.Truthy)
                demo_breakpoints Debugger.NODE_EXIT "B" tt) as (_ & _ & _ & H).
    apply (H (Debugger.mkBreakpoint "node_exit:B" Debugger.NODE_EXIT "B"
                None false 0)); [vm_compute; reflexivity | reflexivity].
Defined.

Lemma C5_condition_failure_is_no_match_witness :
  Debugger._should_break (fun _ (_ : unit) => Debugger.RaisesException)
    demo_breakpoints Debugger.TOOL_CALL "search" tt
  = Debugger.Returns (false, demo_breakpoints)
  /\ Debugger.hits demo_breakpoints "tool_call:search" = Some 2.
Proof.
  apply (C5_condition_failure_is_no_match
           (fun _ (_ : unit) => Debugger.RaisesException)
           demo_breakpoints Debugger.TOOL_CALL "search" tt
           (Debugger.mkBreakpoint "tool_call:search" Debugger.TOOL_CALL "search"
              (Some "context['n'] > 0") true 2)
           "context['n'] > 0").
  - vm_compute. reflexivity.
  - reflexivity.
  - discriminate.
  - left. reflexivity.
Defined.

(** ** Call-stack depth of the tracer *)

Section DepthFacts.
Import Tracer.
Variable py_eq : Py.store -> Py.val -> Py.val -> bool.

Lemma start_depth w name args now :
  depth (snd (start_tool_call w name args now)) = depth w + 1.
Proof. reflexivity. Qed.

Lemma start_stamp w name args now :
  ToolCall.call_stack_depth
    (calls (snd (start_tool_call w name args now))
       !!! fst (start_tool_call w name args now))
  = depth w.
Proof.
  unfold start_tool_call. simpl.
  rewrite lookup_total_app_r by reflexivity.
  now rewrite Nat.sub_diag.
Qed.

Lemma end_depth w c res err now :
  depth (end_tool_call py_eq w c res err now) = Z.max 0 (depth w - 1).
Proof. reflexivity. Qed.

Lemma step_depth_nonneg w ev : 0 <= depth w -> 0 <= depth (step py_eq w ev).
Proof.
  destruct ev; unfold step.
  - rewrite start_depth. lia.
  - rewrite end_depth. lia.
Qed.

Lemma run_depth_nonneg evs : forall w,
  0 <= depth w -> 0 <= depth (run py_eq w evs).
Proof.
  induction evs as [| ev evs IH]; intros w Hw; simpl; [exact Hw |].
  apply IH, step_depth_nonneg, Hw.
Qed.

(** Closing the [opened] calls that are open brings the depth down by as
    many, when the depth accounts for them. *)
Lemma run_well_nested_from evs : forall opened w,
  well_nested_from opened evs = true ->
  Z.of_nat opened <= depth w ->
  depth (run py_eq w evs) = depth w - Z.of_nat opened.
Proof.
  induction evs as [| ev evs IH]; intros opened w Hwn Hd; simpl in *.
  - apply Nat.eqb_eq in Hwn. subst opened. simpl. lia.
  - destruct ev as [name args now | c res err now].
    + rewrite (IH (S opened)); [| exact Hwn |]; unfold step;
        rewrite start_depth; lia.
    + destruct opened as [| n]; [discriminate |].
      rewrite (IH n); [| exact Hwn |]; unfold step; rewrite end_depth; lia.
Qed.

Lemma run_well_nested evs w :
  well_nested evs = true -> 0 <= depth w -> depth (run py_eq w evs) = depth w.
Proof.
  intros Hwn Hd. rewrite (run_well_nested_from evs 0 w Hwn); simpl; lia.
Qed.

(** C1: [start_tool_call] stamps the new record with the depth the tracer had
    before the call and then raises the depth by one, so a call started inside
    it, after any well-nested run of sibling calls, is stamped one deeper;
    a well-nested sequence of starts and ends brings the depth back to where
    it began, which is 0 for a new tracer; the depth is never negative,
    whatever starts and ends are issued and whichever records the ends name,
    and an end issued at depth 0 leaves it at 0. *)
Theorem C1_call_stack_depth (w : World) (name : string) (args : Py.loc) (now : Q) :
  0 <= depth w ->
  (let r := start_tool_call w name args now in
   ToolCall.call_stack_depth (calls (snd r) !!! fst r) = depth w
   /\ depth (snd r) = depth w + 1)
  /\ (forall siblings name' args' now',
        well_nested siblings = true ->
        let outer := start_tool_call w name args now in
        let inner :=
          start_tool_call (run py_eq (snd outer) siblings) name' args' now' in
        ToolCall.call_stack_depth (calls (snd outer) !!! fst outer)
        < ToolCall.call_stack_depth (calls (snd inner) !!! fst inner)
        /\ ToolCall.call_stack_depth (calls (snd inner) !!! fst inner)
           = depth w + 1)
  /\ (forall evs, well_nested evs = true -> depth (run py_eq w evs) = depth w)
  /\ (forall evs objs cs timing,
        well_nested evs = true ->
        depth (run py_eq (fresh objs cs timing) evs) = 0)
  /\ (forall evs, 0 <= depth (run py_eq w evs))
  /\ (forall c res err now',
        depth w = 0 -> depth (end_tool_call py_eq w c res err now') = 0).
Proof.
  intros Hw. split; [| split; [| split; [| split; [| split]]]].
  - split; [apply start_stamp | apply start_depth].
  - intros siblings name' args' now' Hwn outer inner. subst outer inner.
    rewrite !start_stamp, run_well_nested, start_depth;
      [lia | exact Hwn | rewrite start_depth; lia].
  - intros evs Hwn. now apply run_well_nested.
  - intros evs objs cs timing Hwn. now rewrite run_well_nested.
  - intros evs. now apply run_depth_nonneg.
  - intros c res err now' H0. rewrite end_depth, H0. reflexivity.
Qed.

End DepthFacts.

(** ** What ending a call records *)

Section EndFacts.
Import Tracer.
Variable py_eq : Py.store -> Py.val -> Py.val -> bool.

Lemma end_calls_length w c res err now :
  List.length (calls (end_tool_call py_eq w c res err now))
  = List.length (calls w).
Proof. unfold end_tool_call. simpl. apply length_insert. Qed.

Lemma end_other w c res err now x :
  x <> c ->
  calls (end_tool_call py_eq w c res err now) !!! x = calls w !!! x.
Proof.
  intros Hx. unfold end_tool_call. simpl.
  now apply list_lookup_total_insert_ne.
Qed.

Lemma end_status w c res err now :
  (c < List.length (calls w))%nat ->
  ToolCall.status (calls (end_tool_call py_eq w c res err now) !!! c)
  = if str_truthy err then "failed" else "success".
Proof.
  intros Hc. unfold end_tool_call. simpl.
  rewrite list_lookup_total_insert_eq by exact Hc.
  now destruct (str_truthy err).
Qed.

Lemma end_error w c res err now :
  (c < List.length (calls w))%nat ->
  str_truthy err = true ->
  ToolCall.error (calls (end_tool_call py_eq w c res err now) !!! c) = err.
Proof.
  intros Hc He. unfold end_tool_call. simpl.
  rewrite list_lookup_total_insert_eq by exact Hc.
  now rewrite He.
Qed.

Lemma end_result w c res err now :
  (c < List.length (calls w))%nat ->
  str_truthy err = false ->
  ToolCall.result (calls (end_tool_call py_eq w c res err now) !!! c) = res.
Proof.
  intros Hc He. unfold end_tool_call. simpl.
  rewrite list_lookup_total_insert_eq by exact Hc.
  now rewrite He.
Qed.

Lemma end_end_time w c res err now :
  (c < List.length (calls w))%nat ->
  ToolCall.end_time (calls (end_tool_call py_eq w c res err now) !!! c)
  = Some now.
Proof.
  intros Hc. unfold end_tool_call. simpl.
  rewrite list_lookup_total_insert_eq by exact Hc.
  now destruct (str_truthy err).
Qed.

Lemma end_start_time w c res err now x :
  ToolCall.start_time (calls (end_tool_call py_eq w c res err now) !!! x)
  = ToolCall.start_time (calls w !!! x).
Proof.
  destruct (decide (x = c)) as [-> | Hx]; [| now rewrite end_other].
  destruct (decide (c < List.length (calls w))%nat) as [Hc | Hc].
  - unfold end_tool_call. simpl.
    rewrite list_lookup_total_insert_eq by exact Hc.
    now destruct (str_truthy err).
  - unfold end_tool_call. simpl. rewrite list_insert_ge by lia. reflexivity.
Qed.

Lemma end_duration w c res err now :
  (c < List.length (calls w))%nat ->
  float_truthy (ToolCall.start_time (calls w !!! c)) && float_truthy now = true ->
  ToolCall.duration_ms (calls (end_tool_call py_eq w c res err now) !!! c)
  = Some ((now - ToolCall.start_time (calls w !!! c)) * 1000)%Q.
Proof.
  intros Hc Ht. unfold end_tool_call. simpl.
  rewrite list_lookup_total_insert_eq by exact Hc.
  rewrite Ht. now destruct (str_truthy err).
Qed.

(** C10: ending a call with the empty string as error leaves the tracer and
    the record exactly as ending it with no error does: the status is
    "success" and the result is stored.  The status becomes "failed" exactly
    when the error is a non-empty string. *)
Theorem C10_empty_error_is_success
    (w : World) (c : nat) (res : Py.val) (now : Q) :
  (c < List.length (calls w))%nat ->
  end_tool_call py_eq w c res (Some EmptyString) now
  = end_tool_call py_eq w c res None now
  /\ ToolCall.status
       (calls (end_tool_call py_eq w c res (Some EmptyString) now) !!! c)
     = "success"
  /\ ToolCall.result
       (calls (end_tool_call py_eq w c res (Some EmptyString) now) !!! c)
     = res
  /\ (forall err,
        ToolCall.status (calls (end_tool_call py_eq w c res err now) !!! c)
        = "failed"
        <-> exists e, err = Some e /\ e <> EmptyString).
Proof.
  intros Hc. split; [reflexivity |]. split; [| split].
  - now rewrite end_status.
  - now rewrite end_result.
  - intros err. rewrite end_status by exact Hc. split.
    + destruct err as [e |]; simpl; [| discriminate].
      destruct (String.eqb_spec e EmptyString) as [-> | Hne];
        simpl; [discriminate |].
      intros _. now exists e.
    + intros (e & -> & Hne). simpl.
      apply String.eqb_neq in Hne. now rewrite Hne.
Qed.

End EndFacts.

(** ** The tracer's lists stay consistent *)

Section ConsistencyFacts.
Import Tracer.
Variable py_eq : Py.store -> Py.val -> Py.val -> bool.

Lemma consistent_fresh objs cs timing : consistent (fresh objs cs timing).
Proof.
  split; simpl.
  - constructor.
  - constructor.
  - discriminate.
  - constructor.
Qed.

Lemma start_fst w name args now :
  fst (start_tool_call w name args now) = List.length (calls w).
Proof. reflexivity. Qed.

Lemma start_calls w name args now :
  calls (snd (start_tool_call w name args now))
  = calls w ++ [ToolCall.mk name (List.length (objs w)) now None None Py.VNone
                  None "pending" (depth w)].
Proof. reflexivity. Qed.

Lemma start_active w name args now :
  active_tool_calls (tracer (snd (start_tool_call w name args now)))
  = active_tool_calls (tracer w) ++ [List.length (calls w)].
Proof. reflexivity. Qed.

Lemma start_current w name args now :
  current_trace (tracer (snd (start_tool_call w name args now)))
  = current_trace (tracer w).
Proof. reflexivity. Qed.

Lemma start_trace_objs w name args now :
  trace_objs (snd (start_tool_call w name args now))
  = match current_trace (tracer w) with
    | Some r => trace_append_call (trace_objs w) r (List.length (calls w))
    | None => trace_objs w
    end.
Proof. reflexivity. Qed.

Lemma start_old_call w name args now x :
  (x < List.length (calls w))%nat ->
  calls (snd (start_tool_call w name args now)) !!! x = calls w !!! x.
Proof. intros Hx. rewrite start_calls. now apply lookup_total_app_l. Qed.

Lemma trace_append_length trs r c :
  List.length (trace_append_call trs r c) = List.length trs.
Proof. unfold trace_append_call. apply length_insert. Qed.

Lemma consistent_start w name args now :
  consistent w -> consistent (snd (start_tool_call w name args now)).
Proof.
  intros [Hact Hnd Hcur Htr].
  assert (Hfresh : forall l, Forall (fun x => (x < List.length (calls w))%nat) l ->
                             List.length (calls w) ∉ l).
  { intros l Hl Hin. rewrite Forall_forall in Hl. specialize (Hl _ Hin). lia. }
  split.
  - rewrite start_active, start_calls. apply Forall_app. split.
    + eapply Forall_impl; [exact Hact |]. simpl. intros x [Hx He].
      rewrite length_app. simpl. split; [lia |].
      now rewrite lookup_total_app_l.
    + constructor; [| constructor]. rewrite length_app. simpl. split; [lia |].
      rewrite lookup_total_app_r by reflexivity.
      now rewrite Nat.sub_diag.
  - rewrite start_active. apply NoDup_app. split; [exact Hnd |]. split.
    + intros x Hx Hin. apply list_elem_of_singleton in Hin. subst x.
      apply (Hfresh (active_tool_calls (tracer w))); [| exact Hx].
      eapply Forall_impl; [exact Hact |]. simpl. tauto.
    + apply NoDup_singleton.
  - intros r. rewrite start_current, start_trace_objs. intros Hr.
    rewrite Hr, trace_append_length. now apply Hcur.
  - rewrite start_trace_objs, start_calls.
    assert (Hold : Forall
              (fun tr => Forall (fun x => (x < List.length
                   (calls w ++ [ToolCall.mk name (List.length (objs w)) now None
                                  None Py.VNone None "pending" (depth w)]))%nat)
                           (ExecutionTrace.tool_calls tr)
                         /\ NoDup (ExecutionTrace.tool_calls tr))
              (trace_objs w)).
    { eapply Forall_impl; [exact Htr |]. simpl. intros tr [Hv Hn].
      split; [| exact Hn]. eapply Forall_impl; [exact Hv |]. simpl.
      intros x Hx. rewrite length_app. simpl. lia. }
    destruct (current_trace (tracer w)) as [r |] eqn:Hr; [| exact Hold].
    unfold trace_append_call. apply Forall_insert; [exact Hold |]. simpl.
    pose proof (Hcur r eq_refl) as Hlt.
    rewrite Forall_lookup_total in Htr. destruct (Htr r Hlt) as [Hv Hn].
    split.
    + apply Forall_app. split.
      * eapply Forall_impl; [exact Hv |]. simpl. intros x Hx.
        rewrite length_app. simpl. lia.
      * constructor; [| constructor]. rewrite length_app. simpl. lia.
    + apply NoDup_app. split; [exact Hn |]. split; [| apply NoDup_singleton].
      intros x Hx Hin. apply list_elem_of_singleton in Hin. subst x.
      now apply (Hfresh _ Hv).
Qed.

Lemma filter_keeps_all {A} (P : A -> Prop) `{forall x, Decision (P x)} l :
  Forall P l -> filter P l = l.
Proof.
  induction 1 as [| x l Hx _ IH]; [reflexivity |].
  rewrite filter_cons_True by exact Hx. now rewrite IH.
Qed.

(** A record that was ended never equals one that was not. *)
Lemma ToolCall_eq_end_time h x y now :
  ToolCall.end_time x = None ->
  ToolCall.end_time y = Some now ->
  ToolCall_eq py_eq h x y = false.
Proof.
  intros Hx Hy. unfold ToolCall_eq. rewrite Hx, Hy. simpl.
  rewrite andb_false_r. reflexivity.
Qed.

(** On a list of open calls, [remove] takes out the ended call itself. *)
Lemma remove_ended h cs c now : forall active,
  ToolCall.end_time (cs !!! c) = Some now ->
  Forall (fun x => x <> c -> ToolCall.end_time (cs !!! x) = None) active ->
  NoDup active ->
  remove py_eq h cs active c = filter (fun x => x <> c) active.
Proof.
  intros active Hc. induction active as [| x rest IH]; intros Hopen Hnd.
  - reflexivity.
  - apply Forall_cons in Hopen as [Hx Hrest].
    apply NoDup_cons in Hnd as [Hnotin Hnd].
    simpl. unfold same at 1.
    destruct (Nat.eqb_spec x c) as [-> | Hne]; simpl.
    + rewrite filter_cons_False by tauto.
      symmetry. apply filter_keeps_all.
      apply Forall_forall. intros y Hy ->. contradiction.
    + rewrite (ToolCall_eq_end_time h _ _ now (Hx Hne) Hc).
      rewrite filter_cons_True by exact Hne.
      now rewrite IH.
Qed.

Lemma contains_false h cs c active :
  contains py_eq h cs active c = false -> c ∉ active.
Proof.
  intros Hf Hin. unfold contains in Hf.
  assert (Ht : existsb (fun x => same py_eq h cs x c) active = true).
  { apply existsb_exists. exists c. split; [now apply list_elem_of_In |].
    unfold same. now rewrite Nat.eqb_refl. }
  congruence.
Qed.

Lemma end_active w c res err now :
  consistent w ->
  (c < List.length (calls w))%nat ->
  active_tool_calls (tracer (end_tool_call py_eq w c res err now))
  = filter (fun x => x <> c) (active_tool_calls (tracer w)).
Proof.
  intros [Hact Hnd _ _] Hc.
  pose proof (end_end_time py_eq w c res err now Hc) as Hend.
  unfold end_tool_call in *. simpl in *.
  match goal with |- context [<[c := ?r]> (calls w)] => set (tc' := r) in * end.
  destruct (contains _ _ _ _ _) eqn:Hcon.
  - apply (remove_ended _ _ _ now); [exact Hend | | exact Hnd].
    eapply Forall_impl; [exact Hact |]. simpl. intros x [_ He] Hne.
    now rewrite list_lookup_total_insert_ne.
  - apply contains_false in Hcon. symmetry. apply filter_keeps_all.
    apply Forall_forall. intros y Hy ->. contradiction.
Qed.

Lemma consistent_end w c res err now :
  consistent w ->
  (c < List.length (calls w))%nat ->
  consistent (end_tool_call py_eq w c res err now).
Proof.
  intros Hw Hc. pose proof Hw as [Hact Hnd Hcur Htr]. split.
  - rewrite end_active by assumption. apply Forall_forall.
    intros x Hx. apply list_elem_of_filter in Hx as [Hne Hin].
    rewrite Forall_forall in Hact. destruct (Hact x Hin) as [Hlt He].
    rewrite end_calls_length, end_other by exact Hne. now split.
  - rewrite end_active by assumption. now apply NoDup_filter.
  - exact Hcur.
  - eapply Forall_impl; [exact Htr |]. cbv beta. intros tr [Hv Hn].
    split; [| exact Hn]. eapply Forall_impl; [exact Hv |]. cbv beta.
    intros x Hx. now rewrite end_calls_length.
Qed.

End ConsistencyFacts.

(** ** A call from its start to its end *)

Section CallFacts.
Import Tracer.
Variable py_eq : Py.store -> Py.val -> Py.val -> bool.

Lemma trace_append_lookup trs r c :
  (r < List.length trs)%nat ->
  ExecutionTrace.tool_calls (trace_append_call trs r c !!! r)
  = ExecutionTrace.tool_calls (trs !!! r) ++ [c].
Proof.
  intros Hr. unfold trace_append_call.
  now rewrite list_lookup_total_insert_eq.
Qed.

Lemma open_after_start w name args now :
  consistent w ->
  open_call (List.length (calls w)) now (current_trace (tracer w))
    (snd (start_tool_call w name args now)).
Proof.
  intros Hw. split.
  - now apply consistent_start.
  - rewrite start_calls, length_app. simpl. lia.
  - rewrite start_active. apply elem_of_app. right. now apply list_elem_of_singleton.
  - rewrite start_calls, lookup_total_app_r by reflexivity.
    now rewrite Nat.sub_diag.
  - rewrite start_calls, lookup_total_app_r by reflexivity.
    now rewrite Nat.sub_diag.
  - reflexivity.
  - intros r Hr. rewrite start_trace_objs, Hr.
    rewrite trace_append_lookup by (now apply (current_valid _ Hw)).
    apply elem_of_app. right. now apply list_elem_of_singleton.
Qed.

Lemma open_step c t0 cur w ev :
  open_call c t0 cur w ->
  match ev with
  | Start _ _ _ => True
  | End c' _ _ _ => (c' < List.length (calls w))%nat /\ c' <> c
  end ->
  open_call c t0 cur (step py_eq w ev).
Proof.
  intros [Hw Hv Ha Hs Ht Hc Htr] Hev.
  destruct ev as [name args now | c' res err now]; unfold step.
  - split.
    + now apply consistent_start.
    + rewrite start_calls, length_app. simpl. lia.
    + rewrite start_active. apply elem_of_app. now left.
    + now rewrite start_old_call.
    + now rewrite start_old_call.
    + exact Hc.
    + intros r Hr. rewrite start_trace_objs, Hc, Hr.
      rewrite trace_append_lookup.
      * apply elem_of_app. left. now apply Htr.
      * apply (current_valid _ Hw). congruence.
  - destruct Hev as [Hlt Hne]. split.
    + now apply consistent_end.
    + now rewrite end_calls_length.
    + rewrite end_active by assumption. apply list_elem_of_filter.
      split; [congruence | exact Ha].
    + rewrite end_other by congruence. exact Hs.
    + rewrite end_start_time. exact Ht.
    + exact Hc.
    + exact Htr.
Qed.

Lemma open_run c t0 cur evs : forall w,
  open_call c t0 cur w ->
  between py_eq c w evs = true ->
  open_call c t0 cur (run py_eq w evs).
Proof.
  induction evs as [| ev evs IH]; intros w Ho Hb; simpl in *; [exact Ho |].
  apply andb_true_iff in Hb as [Hev Hb].
  apply IH; [| exact Hb]. apply open_step; [exact Ho |].
  destruct ev as [| c' ? ? ?]; [exact I |].
  apply andb_true_iff in Hev as [Hlt Hne].
  apply Nat.ltb_lt in Hlt. apply negb_true_iff, Nat.eqb_neq in Hne. now split.
Qed.

(** Rewriting one entry of a table that a duplicate-free list names moves a
    count over the named entries by that entry alone. *)
Lemma count_update {A} (P : A -> Prop) `{forall x, Decision (P x)}
    (f f' : nat -> A) (c : nat) : forall l,
  NoDup l -> c ∈ l -> (forall x, x <> c -> f' x = f x) ->
  (List.length (filter P (map f' l)) + (if decide (P (f c)) then 1 else 0)
   = List.length (filter P (map f l)) + (if decide (P (f' c)) then 1 else 0))%nat.
Proof.
  intros l Hnd Hin Hext. induction l as [| x l IH]; [now apply elem_of_nil in Hin |].
  apply NoDup_cons in Hnd as [Hx Hnd]. simpl map. rewrite !filter_cons.
  destruct (decide (x = c)) as [-> | Hne].
  - assert (Hsame : map f' l = map f l).
    { apply map_ext_in. intros y Hy. apply Hext. intros ->.
      apply Hx. now apply list_elem_of_In. }
    rewrite Hsame.
    destruct (decide (P (f' c))), (decide (P (f c))); simpl; lia.
  - apply elem_of_cons in Hin as [-> | Hin]; [contradiction |].
    specialize (IH Hnd Hin). rewrite (Hext x Hne).
    destruct (decide (P (f x))); simpl; lia.
Qed.

(** The calls [get_tool_call_stats] counts: those of the open trace. *)
Lemma stats_of_open_trace w r :
  current_trace (tracer w) = Some r ->
  exists s,
    get_tool_call_stats w = inr s
    /\ Stats.successful s
       = Z.of_nat (List.length
           (filter (fun tc => ToolCall.status tc = "success")
              (map (fun c => calls w !!! c)
                 (ExecutionTrace.tool_calls (trace_objs w !!! r)))))
    /\ Stats.failed s
       = Z.of_nat (List.length
           (filter (fun tc => ToolCall.status tc = "failed")
              (map (fun c => calls w !!! c)
                 (ExecutionTrace.tool_calls (trace_objs w !!! r))))).
Proof.
  intros Hr. unfold get_tool_call_stats. rewrite Hr.
  eexists. split; [reflexivity |]. split; reflexivity.
Qed.

Lemma stats_without_trace w :
  current_trace (tracer w) = None ->
  get_tool_call_stats w = inl "No active trace".
Proof. intros Hr. unfold get_tool_call_stats. now rewrite Hr. Qed.

Lemma duration_nonneg (t0 t1 : Q) :
  (t0 <= t1)%Q -> (0 <= (t1 - t0) * 1000)%Q.
Proof.
  intros Hle. apply Qmult_le_0_compat; [| discriminate].
  now apply Qle_minus_iff in Hle.
Qed.

(** C6 (amended): a call started on a consistent tracer and ended after any
    starts and ends of other calls is finalised as follows.  With a non-empty
    error string its status is "failed" and the error is stored; with no
    error, or the empty string, its status is "success" and the result is
    stored.  When both clock readings are non-zero, [duration_ms] is
    (end - start) * 1000, which is non-negative when the clock did not run
    backwards.  The call is in the active list before the end and not after
    it.  When a trace was open at the start of the call,
    [get_tool_call_stats] returns counts, and the end of the call adds one
    to "failed" and nothing to "successful" if it failed, one to
    "successful" and nothing to "failed" otherwise. *)
Theorem C6_end_tool_call_finalises
    (w0 : World) (name : string) (args : Py.loc) (t0 : Q)
    (evs : list event) (res : Py.val) (err : option string) (t1 : Q) :
  consistent w0 ->
  let c := fst (start_tool_call w0 name args t0) in
  let w1 := snd (start_tool_call w0 name args t0) in
  between py_eq c w1 evs = true ->
  let w2 := run py_eq w1 evs in
  let w3 := end_tool_call py_eq w2 c res err t1 in
  let tc := calls w3 !!! c in
  (str_truthy err = true ->
   ToolCall.status tc = "failed" /\ ToolCall.error tc = err)
  /\ (str_truthy err = false ->
      ToolCall.status tc = "success" /\ ToolCall.result tc = res)
  /\ (float_truthy t0 && float_truthy t1 = true ->
      ToolCall.duration_ms tc = Some ((t1 - t0) * 1000)%Q
      /\ ((t0 <= t1)%Q -> (0 <= (t1 - t0) * 1000)%Q))
  /\ (c ∈ active_tool_calls (tracer w2))
  /\ (c ∉ active_tool_calls (tracer w3))
  /\ (forall r,
        current_trace (tracer w0) = Some r ->
        exists s2 s3,
          get_tool_call_stats w2 = inr s2
          /\ get_tool_call_stats w3 = inr s3
          /\ (str_truthy err = true ->
              Stats.failed s3 = Stats.failed s2 + 1
              /\ Stats.successful s3 = Stats.successful s2)
          /\ (str_truthy err = false ->
              Stats.successful s3 = Stats.successful s2 + 1
              /\ Stats.failed s3 = Stats.failed s2)).
Proof.
  intros Hw0 c w1 Hb w2 w3 tc.
  assert (Ho : open_call c t0 (current_trace (tracer w0)) w2).
  { apply open_run; [| exact Hb]. apply open_after_start, Hw0. }
  destruct Ho as [Hw2 Hv Ha Hs Ht Hc Htr].
  split; [| split; [| split; [| split; [| split]]]].
  - intros He. subst tc w3.
    rewrite end_status, end_error, He by assumption. now split.
  - intros He. subst tc w3.
    rewrite end_status, end_result, He by assumption. now split.
  - intros Hclock. split; [| apply duration_nonneg].
    subst tc w3. rewrite end_duration; rewrite ?Ht; [reflexivity | exact Hv | exact Hclock].
  - exact Ha.
  - subst w3. rewrite end_active by assumption.
    intros Hin. apply list_elem_of_filter in Hin as [Hne _]. now apply Hne.
  - intros r Hr. rewrite Hr in *.
    destruct (stats_of_open_trace w2 r Hc) as (s2 & Hs2 & Hok2 & Hko2).
    destruct (stats_of_open_trace w3 r Hc) as (s3 & Hs3 & Hok3 & Hko3).
    exists s2, s3. split; [exact Hs2 |]. split; [exact Hs3 |].
    assert (Hnd : NoDup (ExecutionTrace.tool_calls (trace_objs w2 !!! r))).
    { pose proof (traces_valid _ Hw2) as Hall.
      rewrite Forall_lookup_total in Hall.
      apply Hall. now apply (current_valid _ Hw2). }
    pose proof (Htr r eq_refl) as Hin.
    assert (Hext : forall x, x <> c -> calls w3 !!! x = calls w2 !!! x).
    { intros x Hx. subst w3. now apply end_other. }
    pose proof (count_update (fun tc => ToolCall.status tc = "success")
                  (fun x => calls w2 !!! x) (fun x => calls w3 !!! x) c _
                  Hnd Hin Hext) as Hcok.
    pose proof (count_update (fun tc => ToolCall.status tc = "failed")
                  (fun x => calls w2 !!! x) (fun x => calls w3 !!! x) c _
                  Hnd Hin Hext) as Hcko.
    cbv beta in Hcok, Hcko.
    assert (Hst : ToolCall.status (calls w3 !!! c)
                  = if str_truthy err then "failed" else "success").
    { subst w3. now apply end_status. }
    change (trace_objs w3) with (trace_objs w2) in Hok3, Hko3.
    rewrite Hok2, Hok3, Hko2, Hko3. rewrite Hs, Hst in Hcok, Hcko.
    clearbody tc w3.
    split; intros He; rewrite He in Hcok, Hcko.
    + rewrite !decide_False in Hcok by discriminate.
      rewrite decide_False, decide_True in Hcko by (discriminate || reflexivity).
      lia.
    + rewrite decide_False, decide_True in Hcok by (discriminate || reflexivity).
      rewrite !decide_False in Hcko by discriminate.
      lia.
Qed.

End CallFacts.

(** ** The arguments a call records *)

Section ArgumentFacts.
Import Tracer.

Lemma mutate_other (h : Py.store) l o a :
  l <> a -> Py.mutate h l o !!! a = h !!! a.
Proof. intros Hne. unfold Py.mutate. now apply list_lookup_total_insert_ne. Qed.

Lemma mutate_all_other ms : forall (h : Py.store) a,
  Forall (fun m => fst m <> a) ms -> Py.mutate_all h ms !!! a = h !!! a.
Proof.
  induction ms as [| m ms IH]; intros h a Hms; [reflexivity |].
  apply Forall_cons in Hms as [Hm Hms]. unfold Py.mutate_all in *. simpl.
  rewrite IH by exact Hms. now apply mutate_other.
Qed.

Lemma resolve_scalar fuel h h' v :
  Py.is_scalar v = true -> Py.resolve fuel h v = Py.resolve fuel h' v.
Proof. destruct v, fuel; simpl; intros; (reflexivity || discriminate). Qed.

Lemma resolve_scalars fuel h h' a :
  h' !!! a = h !!! a ->
  (forall items, h !!! a = Py.ODict items ->
                 Forall (fun kv => Py.is_scalar (snd kv) = true) items) ->
  (forall items, h !!! a = Py.OList items ->
                 Forall (fun v => Py.is_scalar v = true) items) ->
  Py.resolve fuel h' (Py.VRef a) = Py.resolve fuel h (Py.VRef a).
Proof.
  intros Hsame Hd Hl. destruct fuel as [| fuel]; [reflexivity |]. simpl.
  rewrite Hsame. destruct (h !!! a) as [items | items] eqn:Ha.
  - f_equal. apply map_ext_in. intros [k v] Hin. simpl. f_equal.
    apply resolve_scalar.
    specialize (Hd items eq_refl). rewrite Forall_forall in Hd.
    apply (Hd (k, v)). now apply list_elem_of_In.
  - f_equal. apply map_ext_in. intros v Hin.
    apply resolve_scalar.
    specialize (Hl items eq_refl). rewrite Forall_forall in Hl.
    apply Hl. now apply list_elem_of_In.
Qed.

Lemma start_arguments w name args now :
  ToolCall.arguments
    (calls (snd (start_tool_call w name args now))
       !!! fst (start_tool_call w name args now))
  = List.length (objs w).
Proof.
  rewrite start_calls, start_fst, lookup_total_app_r by reflexivity.
  now rewrite Nat.sub_diag.
Qed.

Lemma start_objs w name args now :
  objs (snd (start_tool_call w name args now)) = objs w ++ [objs w !!! args].
Proof. reflexivity. Qed.

(** C4 (amended): the arguments stored in the record are a shallow copy of
    the passed mapping: a new dict with the slots of the caller's dict.  The
    new dict is none of the objects that existed at the call, so mutating the
    caller's dict itself, or any object other than the record's dict, leaves
    the recorded keys and slots unchanged; and when every slot holds a scalar
    the recorded arguments, read through all references, are unchanged. *)
Theorem C4_arguments_shallow_copy
    (w : World) (name : string) (args : Py.loc) (now : Q) :
  let r := start_tool_call w name args now in
  let a := ToolCall.arguments (calls (snd r) !!! fst r) in
  objs (snd r) !!! a = objs w !!! args
  /\ (forall l, (l < List.length (objs w))%nat -> l <> a)
  /\ (forall l, (l < List.length (objs w))%nat ->
                objs (snd r) !!! l = objs w !!! l)
  /\ (forall ms,
        Forall (fun m => fst m <> a) ms ->
        Py.mutate_all (objs (snd r)) ms !!! a = objs w !!! args)
  /\ (forall ms items fuel,
        Forall (fun m => fst m <> a) ms ->
        objs w !!! args = Py.ODict items ->
        Forall (fun kv => Py.is_scalar (snd kv) = true) items ->
        Py.resolve fuel (Py.mutate_all (objs (snd r)) ms) (Py.VRef a)
        = Py.resolve fuel (objs (snd r)) (Py.VRef a)).
Proof.
  intros r a. subst r a. rewrite start_arguments, start_objs.
  assert (Hnew : (objs w ++ [objs w !!! args]) !!! List.length (objs w)
                 = objs w !!! args).
  { rewrite lookup_total_app_r by reflexivity. now rewrite Nat.sub_diag. }
  split; [exact Hnew |]. split; [intros l Hl; lia |].
  split; [intros l Hl; now apply lookup_total_app_l |].
  split.
  - intros ms Hms. now rewrite mutate_all_other.
  - intros ms items fuel Hms Hitems Hsc. apply resolve_scalars.
    + now apply mutate_all_other.
    + intros items' Hi.
      assert (He : Py.ODict items = Py.ODict items')
        by (rewrite <- Hitems, <- Hnew; exact Hi).
      now inversion He; subst.
    + intros items' Hi.
      assert (He : Py.ODict items = Py.OList items')
        by (rewrite <- Hitems, <- Hnew; exact Hi).
      discriminate.
Qed.

End ArgumentFacts.

(** The caller passes [{"q": [1]}] and appends 2 to the inner list after the
    call: the record then reads [{"q": [1, 2]}]. *)
Lemma C4_nested_mutation_reaches_record :
  let r := Tracer.start_tool_call (Tracer.fresh demo_store [] true) "search" 0%nat 1 in
  let a := Tracer.ToolCall.arguments (Tracer.calls (snd r) !!! fst r) in
  let later := Py.list_append (Tracer.objs (snd r)) 1%nat (Py.VInt 2) in
  Py.resolve 5 (Tracer.objs (snd r)) (Py.VRef a)
  = Py.TDict [("q", Py.TList [Py.TInt 1])]
  /\ Py.resolve 5 later (Py.VRef a)
     = Py.TDict [("q", Py.TList [Py.TInt 1; Py.TInt 2])]
  /\ Py.resolve 5 later (Py.VRef a)
     <> Py.resolve 5 (Tracer.objs (snd r)) (Py.VRef a).
Proof.
  vm_compute. split; [reflexivity |]. split; [reflexivity | discriminate].
Qed.

Lemma C4_arguments_shallow_copy_witness :
  let r := Tracer.start_tool_call (Tracer.fresh demo_store [] true) "search" 0%nat 1 in
  let a := Tracer.ToolCall.arguments (Tracer.calls (snd r) !!! fst r) in
  (0 < List.length demo_store)%nat
  /\ 0%nat <> a
  /\ Py.mutate_all (Tracer.objs (snd r))
       [(0%nat, Py.ODict [("q", Py.VInt 3); ("extra", Py.VNone)])] !!! a
     = Py.ODict [("q", Py.VRef 1%nat)].
Proof.
  intros r a.
  destruct (C4_arguments_shallow_copy (Tracer.fresh demo_store [] true)
              "search" 0%nat 1) as (_ & Hfresh & _ & Hkeep & _).
  split; [vm_compute; lia |]. split.
  - apply Hfresh. vm_compute. lia.
  - apply (Hkeep [(0%nat, Py.ODict [("q", Py.VInt 3); ("extra", Py.VNone)])]).
    repeat constructor. vm_compute. discriminate.
Defined.

(** ** The tracer on concrete runs *)

Lemma consistent_start_trace w trace_id now :
  Tracer.consistent w -> Tracer.consistent (snd (Tracer.start_trace w trace_id now)).
Proof.
  intros [Hact Hnd Hcur Htr]. split; simpl.
  - exact Hact.
  - exact Hnd.
  - intros r [= <-]. rewrite length_app. simpl. lia.
  - apply Forall_app. split; [exact Htr |].
    repeat constructor.
Qed.

Lemma demo_world_consistent : Tracer.consistent demo_world.
Proof. apply consistent_start_trace, consistent_fresh. Qed.

Lemma C1_call_stack_depth_witness :
  0 <= Tracer.depth demo_world
  /\ Tracer.well_nested demo_inner = true
  /\ Tracer.depth
       (Tracer.run demo_eq
          (snd (Tracer.start_tool_call demo_world "search" 0%nat 11)) demo_inner)
     = 1
  /\ Tracer.depth (Tracer.run demo_eq demo_world demo_inner) = 0.
Proof.
  assert (H0 : 0 <= Tracer.depth demo_world) by (vm_compute; discriminate).
  split; [exact H0 |]. split; [reflexivity |].
  destruct (C1_call_stack_depth demo_eq
              (snd (Tracer.start_tool_call demo_world "search" 0%nat 11))
              "fetch" 0%nat 12) as (_ & _ & Hback & _);
    [vm_compute; discriminate |].
  destruct (C1_call_stack_depth demo_eq demo_world "search" 0%nat 11 H0)
    as (_ & _ & Hback0 & _).
  split.
  - rewrite Hback by reflexivity. reflexivity.
  - rewrite Hback0 by reflexivity. reflexivity.
Defined.

Lemma C10_empty_error_is_success_witness :
  let r := Tracer.start_tool_call demo_world "search" 0%nat 11 in
  (fst r < List.length (Tracer.calls (snd r)))%nat
  /\ Tracer.ToolCall.status
       (Tracer.calls
          (Tracer.end_tool_call demo_eq (snd r) (fst r) (Py.VInt 3)
             (Some EmptyString) 12) !!! fst r)
     = "success".
Proof.
  intros r.
  assert (Hlt : (fst r < List.length (Tracer.calls (snd r)))%nat)
    by (vm_compute; lia).
  split; [exact Hlt |].
  destruct (C10_empty_error_is_success demo_eq (snd r) (fst r) (Py.VInt 3) 12 Hlt)
    as (_ & Hstatus & _).
  exact Hstatus.
Defined.

Lemma C6_end_tool_call_finalises_witness :
  let r := Tracer.start_tool_call demo_world "search" 0%nat 11 in
  let w3 :=
    Tracer.end_tool_call demo_eq (Tracer.run demo_eq (snd r) demo_inner)
      (fst r) Py.VNone (Some "timeout") 15 in
  Tracer.consistent demo_world
  /\ Tracer.between demo_eq (fst r) (snd r) demo_inner = true
  /\ Tracer.ToolCall.status (Tracer.calls w3 !!! fst r) = "failed"
  /\ Tracer.ToolCall.error (Tracer.calls w3 !!! fst r) = Some "timeout"
  /\ Tracer.ToolCall.duration_ms (Tracer.calls w3 !!! fst r)
     = Some ((15 - 11) * 1000)%Q
  /\ (fst r ∉ Tracer.active_tool_calls (Tracer.tracer w3)).
Proof.
  intros r w3.
  assert (Hb : Tracer.between demo_eq (fst r) (snd r) demo_inner = true)
    by (vm_compute; reflexivity).
  split; [exact demo_world_consistent |]. split; [exact Hb |].
  destruct (C6_end_tool_call_finalises demo_eq demo_world "search" 0%nat 11
              demo_inner Py.VNone (Some "timeout") 15 demo_world_consistent Hb)
    as (Hfail & _ & Hdur & _ & Hgone & _).
  destruct (Hfail eq_refl) as [Hst Her].
  destruct (Hdur eq_refl) as [Hd _].
  split; [exact Hst |]. split; [exact Her |]. split; [exact Hd | exact Hgone].
Defined.

(** Ending the call "search" with the empty string as its error leaves its
    status at "success" and stores no error; and on a tracer without an open
    trace, the statistics after a call that failed with "timeout" hold no
    counts at all. *)
Lemma C6_error_given_yet_success :
  let w0 := Tracer.fresh demo_store [] true in
  let r := Tracer.start_tool_call w0 "search" 0%nat 1 in
  let ended err := Tracer.end_tool_call demo_eq (snd r) (fst r) Py.VNone err 2 in
  Tracer.ToolCall.status (Tracer.calls (ended (Some EmptyString)) !!! fst r)
  = "success"
  /\ Tracer.ToolCall.status (Tracer.calls (ended (Some EmptyString)) !!! fst r)
     <> "failed"
  /\ Tracer.ToolCall.error (Tracer.calls (ended (Some EmptyString)) !!! fst r)
     = None
  /\ Tracer.ToolCall.status (Tracer.calls (ended (Some "timeout")) !!! fst r)
     = "failed"
  /\ Tracer.get_tool_call_stats (ended (Some "timeout")) = inl "No active trace".
Proof.
  vm_compute. repeat split; (reflexivity || discriminate).
Qed.

(** ** Snapshots *)

Section SnapshotFacts.
Import Inspector.

Lemma compare_found snaps s1 s2 a b :
  get_snapshot snaps s1 = Some a ->
  get_snapshot snaps s2 = Some b ->
  compare_snapshots snaps s1 s2
  = inr {| added_keys :=
             elements (list_to_set (context_keys b) ∖ list_to_set (context_keys a)
                       : gset string);
           removed_keys :=
             elements (list_to_set (context_keys a) ∖ list_to_set (context_keys b)
                       : gset string);
           common_keys :=
             elements (list_to_set (context_keys a) ∩ list_to_set (context_keys b)
                       : gset string);
           step_diff := s2 - s1 |}.
Proof. intros Ha Hb. unfold compare_snapshots. now rewrite Ha, Hb. Qed.

(** C7: when both step numbers name a snapshot, the comparison in one
    direction mirrors the comparison in the other: the added keys of one are,
    as a set, the removed keys of the other, the common keys are the same set
    and the step difference changes sign; the added keys are those of the
    second snapshot that the first lacks, the removed keys those of the
    first that the second lacks, the common keys those in both.  When a step
    number names no snapshot the result is the error payload. *)
Theorem C7_compare_snapshots_antisymmetric
    (snaps : list Snapshot) (s1 s2 : Z) :
  (forall a b,
      get_snapshot snaps s1 = Some a ->
      get_snapshot snaps s2 = Some b ->
      exists d12 d21,
        compare_snapshots snaps s1 s2 = inr d12
        /\ compare_snapshots snaps s2 s1 = inr d21
        /\ list_to_set (added_keys d12) =@{gset string} list_to_set (removed_keys d21)
        /\ list_to_set (removed_keys d12) =@{gset string} list_to_set (added_keys d21)
        /\ list_to_set (common_keys d12) =@{gset string} list_to_set (common_keys d21)
        /\ step_diff d21 = - step_diff d12
        /\ (forall k, k ∈ added_keys d12
                      <-> k ∈ context_keys b /\ k ∉ context_keys a)
        /\ (forall k, k ∈ removed_keys d12
                      <-> k ∈ context_keys a /\ k ∉ context_keys b)
        /\ (forall k, k ∈ common_keys d12
                      <-> k ∈ context_keys a /\ k ∈ context_keys b))
  /\ (get_snapshot snaps s1 = None \/ get_snapshot snaps s2 = None ->
      compare_snapshots snaps s1 s2 = inl "One or both snapshots not found").
Proof.
  split.
  - intros a b Ha Hb. eexists. eexists.
    split; [apply (compare_found _ _ _ _ _ Ha Hb) |].
    split; [apply (compare_found _ _ _ _ _ Hb Ha) |]. simpl.
    split; [reflexivity |]. split; [reflexivity |].
    split; [f_equal; f_equal; apply set_eq; intros k;
            rewrite !elem_of_intersection; tauto |].
    split; [lia |].
    split; [| split]; intros k; rewrite elem_of_elements.
    + now rewrite elem_of_difference, !elem_of_list_to_set.
    + now rewrite elem_of_difference, !elem_of_list_to_set.
    + now rewrite elem_of_intersection, !elem_of_list_to_set.
  - intros [H | H]; unfold compare_snapshots; rewrite H; [reflexivity |].
    now destruct (get_snapshot snaps s1).
Qed.

Context {V : Type}.
Variable _preview_value : V -> string.

Lemma take_snapshots_cons snaps r reqs :
  take_snapshots _preview_value snaps (r :: reqs)
  = take_snapshots _preview_value
      (snd (take_snapshot _preview_value snaps (req_step r) (req_node_id r)
              (req_context r) (req_now r))) reqs.
Proof. reflexivity. Qed.

Lemma take_snapshot_appends snaps s n ctx now :
  snd (take_snapshot _preview_value snaps s n ctx now)
  = snaps ++ [fst (take_snapshot _preview_value snaps s n ctx now)]
  /\ step (fst (take_snapshot _preview_value snaps s n ctx now)) = s.
Proof. split; reflexivity. Qed.

Lemma take_snapshots_steps reqs : forall snaps,
  map step (take_snapshots _preview_value snaps reqs)
  = map step snaps ++ map req_step reqs.
Proof.
  induction reqs as [| r reqs IH]; intros snaps.
  - simpl. now rewrite app_nil_r.
  - rewrite take_snapshots_cons, IH.
    destruct (take_snapshot_appends snaps (req_step r) (req_node_id r)
                (req_context r) (req_now r)) as [-> Hs].
    rewrite map_app, <- app_assoc. reflexivity.
Qed.

Lemma take_snapshots_keeps reqs : forall snaps,
  exists new, take_snapshots _preview_value snaps reqs = snaps ++ new
              /\ List.length new = List.length reqs.
Proof.
  induction reqs as [| r reqs IH]; intros snaps.
  - exists []. now rewrite app_nil_r.
  - rewrite take_snapshots_cons.
    destruct (take_snapshot_appends snaps (req_step r) (req_node_id r)
                (req_context r) (req_now r)) as [-> _].
    match goal with |- context [snaps ++ [?sn]] =>
      destruct (IH (snaps ++ [sn])) as (new & Hnew & Hlen);
      exists (sn :: new)
    end.
    rewrite Hnew, <- app_assoc. split; [reflexivity |].
    simpl. now rewrite Hlen.
Qed.

(** [get_snapshot] returns the earliest snapshot taken with the step. *)
Lemma get_snapshot_first snaps s sn :
  get_snapshot snaps s = Some sn ->
  step sn = s
  /\ exists pre post, snaps = pre ++ sn :: post
                      /\ Forall (fun x => step x <> s) pre.
Proof.
  induction snaps as [| x snaps IH]; simpl; [discriminate |].
  destruct (Z.eqb_spec (step x) s) as [Heq | Hne].
  - intros [= ->]. split; [exact Heq |]. exists [], snaps. now split.
  - intros Hget. destruct (IH Hget) as (Hs & pre & post & -> & Hpre).
    split; [exact Hs |]. exists (x :: pre), post. split; [reflexivity |].
    now constructor.
Qed.

Lemma get_snapshot_unique snaps sn :
  NoDup (map step snaps) -> sn ∈ snaps -> get_snapshot snaps (step sn) = Some sn.
Proof.
  induction snaps as [| x snaps IH]; intros Hnd Hin;
    [now apply elem_of_nil in Hin |].
  simpl in *. apply NoDup_cons in Hnd as [Hx Hnd].
  apply elem_of_cons in Hin as [-> | Hin].
  - now rewrite Z.eqb_refl.
  - destruct (Z.eqb_spec (step x) (step sn)) as [Heq | Hne]; [| now apply IH].
    exfalso. apply Hx. rewrite Heq. apply list_elem_of_fmap. now exists sn.
Qed.

Lemma strictly_sorted_nodup (l : list Z) : StronglySorted Z.lt l -> NoDup l.
Proof.
  induction 1 as [| x l _ IH Hall]; [constructor |].
  apply NoDup_cons. split; [| exact IH].
  intros Hin. rewrite Forall_forall in Hall. specialize (Hall _ Hin). lia.
Qed.

(** [get_snapshot] finds a snapshot for every step that was taken, and only
    for those. *)
Lemma get_snapshot_finds snaps s :
  s ∈ map step snaps -> exists sn, get_snapshot snaps s = Some sn.
Proof.
  induction snaps as [| x snaps IH]; simpl; intros Hin;
    [now apply elem_of_nil in Hin |].
  destruct (Z.eqb_spec (step x) s) as [Heq | Hne]; [now exists x |].
  apply elem_of_cons in Hin as [-> | Hin]; [contradiction | now apply IH].
Qed.

Lemma get_snapshot_none snaps s :
  get_snapshot snaps s = None <-> s ∉ map step snaps.
Proof.
  split.
  - intros Hnone Hin. apply get_snapshot_finds in Hin as [sn Hsn]. congruence.
  - intros Hnot. destruct (get_snapshot snaps s) as [sn |] eqn:Hget;
      [| reflexivity].
    exfalso. apply Hnot.
    apply get_snapshot_first in Hget as (<- & pre & post & -> & _).
    rewrite map_app. apply elem_of_app. right. now left.
Qed.

(** C9 (amended): every [take_snapshot] call appends one snapshot with the
    step it was given and leaves the earlier ones in place, so the list is in
    the order of the calls; for every step a snapshot was taken with,
    [get_snapshot] returns the earliest snapshot taken with it, and it
    returns [None] exactly for the steps no snapshot was taken with.  When
    the steps given over the inspector's lifetime are strictly increasing,
    the list is ordered by step, no step occurs twice and [get_snapshot]
    finds each snapshot under its own step. *)
Theorem C9_snapshots_in_call_order
    (snaps : list Snapshot) (reqs : list (request (V := V))) :
  let snaps' := take_snapshots _preview_value snaps reqs in
  map step snaps' = map step snaps ++ map req_step reqs
  /\ (exists new, snaps' = snaps ++ new /\ List.length new = List.length reqs)
  /\ (forall s sn,
        get_snapshot snaps' s = Some sn ->
        step sn = s
        /\ exists pre post, snaps' = pre ++ sn :: post
                            /\ Forall (fun x => step x <> s) pre)
  /\ (StronglySorted Z.lt (map step snaps ++ map req_step reqs) ->
      StronglySorted Z.lt (map step snaps')
      /\ NoDup (map step snaps')
      /\ forall sn, sn ∈ snaps' -> get_snapshot snaps' (step sn) = Some sn)
  /\ (forall s,
        s ∈ map step snaps ++ map req_step reqs ->
        exists sn pre post,
          get_snapshot snaps' s = Some sn
          /\ step sn = s
          /\ snaps' = pre ++ sn :: post
          /\ Forall (fun x => step x <> s) pre)
  /\ (forall s,
        get_snapshot snaps' s = None
        <-> s ∉ map step snaps ++ map req_step reqs).
Proof.
  intros snaps'. subst snaps'.
  split; [apply take_snapshots_steps |].
  split; [apply take_snapshots_keeps |].
  split; [intros s sn; apply get_snapshot_first |].
  rewrite <- take_snapshots_steps. split; [| split].
  - intros Hsorted. split; [exact Hsorted |].
    pose proof (strictly_sorted_nodup _ Hsorted) as Hnd.
    split; [exact Hnd |]. intros sn. now apply get_snapshot_unique.
  - intros s Hin. destruct (get_snapshot_finds _ _ Hin) as [sn Hget].
    destruct (get_snapshot_first _ _ _ Hget) as (Hs & pre & post & Hsplit & Hpre).
    now exists sn, pre, post.
  - intros s. apply get_snapshot_none.
Qed.

End SnapshotFacts.

(** Two snapshots taken with step 1 are both kept, and snapshots taken with
    steps 2 and then 1 are kept in that order. *)
Lemma C9_steps_repeat_and_disorder :
  let taken steps :=
    Inspector.take_snapshots (fun _ : unit => "()") []
      (map (fun s => Inspector.mkRequest s "A" [("k", tt)] "now") steps) in
  map Inspector.step (taken [1; 1]) = [1; 1]
  /\ ~ NoDup (map Inspector.step (taken [1; 1]))
  /\ map Inspector.step (taken [2; 1]) = [2; 1]
  /\ ~ StronglySorted Z.le (map Inspector.step (taken [2; 1])).
Proof.
  simpl. split; [reflexivity |]. split; [| split; [reflexivity |]].
  - intros Hnd. apply NoDup_cons in Hnd as [Hin _]. apply Hin. now left.
  - intros Hs. inversion Hs as [| ? ? _ Hall]; subst.
    inversion Hall as [| ? ? Hle _]; subst. lia.
Qed.

Lemma C9_snapshots_in_call_order_witness :
  let reqs :=
    [Inspector.mkRequest 1 "A" [("k", tt)] "t1";
     Inspector.mkRequest 2 "B" [("k", tt); ("m", tt)] "t2"] in
  let snaps' := Inspector.take_snapshots (fun _ : unit => "()") [] reqs in
  let again :=
    Inspector.take_snapshots (fun _ : unit => "()") []
      [Inspector.mkRequest 2 "A" [("k", tt)] "t1";
       Inspector.mkRequest 1 "B" [("k", tt)] "t2";
       Inspector.mkRequest 2 "C" [("k", tt)] "t3"] in
  StronglySorted Z.lt (map Inspector.req_step reqs)
  /\ StronglySorted Z.lt (map Inspector.step snaps')
  /\ NoDup (map Inspector.step snaps')
  /\ (exists sn, Inspector.get_snapshot again 1 = Some sn
                 /\ Inspector.node_id sn = "B")
  /\ (exists sn, Inspector.get_snapshot again 2 = Some sn
                 /\ Inspector.node_id sn = "A")
  /\ Inspector.get_snapshot again 3 = None.
Proof.
  intros reqs snaps' again.
  assert (Hs : StronglySorted Z.lt (map Inspector.req_step reqs)).
  { simpl. repeat constructor. }
  split; [exact Hs |].
  destruct (C9_snapshots_in_call_order (fun _ : unit => "()") [] reqs)
    as (_ & _ & _ & Hsorted & _).
  destruct (Hsorted Hs) as (H1 & H2 & _).
  split; [exact H1 |]. split; [exact H2 |].
  destruct (C9_snapshots_in_call_order (fun _ : unit => "()") []
              [Inspector.mkRequest 2 "A" [("k", tt)] "t1";
               Inspector.mkRequest 1 "B" [("k", tt)] "t2";
               Inspector.mkRequest 2 "C" [("k", tt)] "t3"])
    as (_ & _ & _ & _ & Hfind & Hnone).
  split; [| split].
  - destruct (Hfind 1) as (sn & pre & post & Hget & _);
      [simpl; rewrite !elem_of_cons; tauto |].
    exists sn. split; [exact Hget |].
    change (Inspector.get_snapshot again 1 = Some sn) in Hget.
    vm_compute in Hget. now injection Hget as <-.
  - destruct (Hfind 2) as (sn & pre & post & Hget & _);
      [simpl; rewrite !elem_of_cons; tauto |].
    exists sn. split; [exact Hget |].
    change (Inspector.get_snapshot again 2 = Some sn) in Hget.
    vm_compute in Hget. now injection Hget as <-.
  - apply Hnone. simpl. rewrite !elem_of_cons, elem_of_nil.
    intros [H | [H | [H | []]]]; discriminate H.
Defined.

Lemma C7_compare_snapshots_antisymmetric_witness :
  let snaps :=
    Inspector.take_snapshots (fun _ : unit => "()") []
      [Inspector.mkRequest 1 "A" [("k", tt)] "t1";
       Inspector.mkRequest 2 "B" [("k", tt); ("m", tt)] "t2"] in
  Inspector.compare_snapshots snaps 1 7 = inl "One or both snapshots not found"
  /\ exists d12 d21,
       Inspector.compare_snapshots snaps 1 2 = inr d12
       /\ Inspector.compare_snapshots snaps 2 1 = inr d21
       /\ Inspector.step_diff d21 = - Inspector.step_diff d12.
Proof.
  intros snaps. split.
  - destruct (C7_compare_snapshots_antisymmetric snaps 1 7) as (_ & Herr).
    apply Herr. right. reflexivity.
  - destruct (C7_compare_snapshots_antisymmetric snaps 1 2) as (Hsym & _).
    destruct (Hsym (Inspector.mkSnapshot 1 "A" "t1" ["k"] [("k", "()")])
                (Inspector.mkSnapshot 2 "B" "t2" ["k"; "m"]
                   [("k", "()"); ("m", "()")]) eq_refl eq_refl)
      as (d12 & d21 & H12 & H21 & _ & _ & _ & Hdiff & _).
    exists d12, d21. split; [exact H12 |]. split; [exact H21 | exact Hdiff].
Defined.

(** ** Rendering to DOT *)

(** C8: [render_dot] adds the dashed style to an edge exactly when the text
    of its condition contains "CONDITIONAL" in capitals.  The text of an
    enum member is its value, "on_success" or "conditional", so no edge
    tagged with a member is dashed: in the scenario neither edge line
    carries a style, and the output holds no "dashed" at all. *)
Theorem C8_render_dot_dashes_on_capitals_only :
  (forall e,
      Visualizer.dot_edge_attrs e
      = [Visualizer.label_attr
           (if str_truthy (Visualizer.condition_expr e)
            then Visualizer.condition_text e +:+ "\n"
                 +:+ default EmptyString (Visualizer.condition_expr e)
            else Visualizer.condition_text e)]
        ++ (if Visualizer.str_in "CONDITIONAL" (Visualizer.condition_text e)
            then ["style=" +:+ Visualizer.dq +:+ "dashed" +:+ Visualizer.dq]
            else []))
  /\ (forall c, Visualizer.str_in "CONDITIONAL" (Visualizer.value c) = false)
  /\ map Visualizer.dot_edge (Visualizer.edges demo_graph)
     = ["    A -> B [label=" +:+ Visualizer.dq +:+ "on_success" +:+ Visualizer.dq
        +:+ "];";
        "    B -> C [label=" +:+ Visualizer.dq +:+ "conditional\nx>0"
        +:+ Visualizer.dq +:+ "];"]
  /\ Visualizer.str_in "dashed" (Visualizer.render_dot demo_graph) = false
  /\ Visualizer.dot_edge
       (Visualizer.mkEdge "e2" "B" "C" (Visualizer.Plain "CONDITIONAL") (Some "x>0"))
     = "    B -> C [label=" +:+ Visualizer.dq +:+ "CONDITIONAL\nx>0"
       +:+ Visualizer.dq +:+ ", style=" +:+ Visualizer.dq +:+ "dashed"
       +:+ Visualizer.dq +:+ "];".
Proof.
  split; [reflexivity |].
  split; [intros []; reflexivity |].
  split; [reflexivity |].
  split; [vm_compute; reflexivity | reflexivity].
Qed.

(** ** Enumerating execution paths *)

Section PathFacts.
Import Visualizer.
Variable g : GraphSpec.

Lemma linked_outgoing a b :
  linked g a b <-> exists e, e ∈ outgoing g a /\ target e = b.
Proof.
  unfold linked, outgoing. split.
  - intros (e & He & Hs & Ht). exists e. split; [| exact Ht].
    apply list_elem_of_filter. now split.
  - intros (e & He & Ht). apply list_elem_of_filter in He as [Hs He].
    now exists e.
Qed.

Lemma terminal_path_head c q : terminal_path g c q -> exists rest, q = c :: rest.
Proof.
  intros (Hh & _). destruct q as [| x rest]; [discriminate |].
  injection Hh as ->. now exists rest.
Qed.

(** A terminal path stops at once on a terminal node, or takes an edge and
    continues with a terminal path from its target. *)
Lemma terminal_path_unfold c q :
  terminal_path g c q
  <-> (q = [c] /\ terminal g c)
      \/ (exists b q', q = c :: q' /\ linked g c b /\ terminal_path g b q').
Proof.
  split.
  - intros Hq. destruct (terminal_path_head _ _ Hq) as [rest ->].
    destruct Hq as (_ & Hw & n & Hl & Hn).
    destruct rest as [| b r].
    + left. injection Hl as ->. now split.
    + right. exists b, (b :: r). simpl in Hw. destruct Hw as [Hlk Hw].
      split; [reflexivity |]. split; [exact Hlk |].
      split; [reflexivity |]. split; [exact Hw |]. now exists n.
  - intros [[-> Ht] | (b & q' & -> & Hlk & Hq')].
    + split; [reflexivity |]. split; [exact I |]. now exists c.
    + destruct (terminal_path_head _ _ Hq') as [r ->].
      destruct Hq' as (_ & Hw & n & Hl & Hn).
      split; [reflexivity |]. split; [now split |]. now exists n.
Qed.

Lemma dfs_unfold frames d current path depth acc :
  dfs (S frames) g d current path depth acc
  = if depth >? d then Returned acc
    else match outgoing g current with
         | [] => Returned (acc ++ [path ++ [current]])
         | _ :: _ =>
             fold_left (visit frames g d (path ++ [current]) (depth + 1))
               (outgoing g current) (Returned acc)
         end.
Proof. simpl. now destruct (outgoing g current). Qed.

(** Once an edge raised, the loop is over. *)
Lemma visits_after_error frames d path depth out :
  fold_left (visit frames g d path depth) out RecursionError = RecursionError.
Proof. induction out as [| e out IH]; [reflexivity | exact IH]. Qed.

Lemma visits_cons frames d path depth e out acc :
  fold_left (visit frames g d path depth) (e :: out) (Returned acc)
  = fold_left (visit frames g d path depth) out
      (dfs frames g d (target e) path depth acc).
Proof. reflexivity. Qed.

(** What one level of [dfs] adds for the walks through its edges, when every
    edge returns. *)
Lemma dfs_fold frames d path depth (Q : EdgeSpec -> list string -> Prop) :
  forall out acc,
    (forall e acc', e ∈ out ->
       exists new,
         dfs frames g d (target e) path depth acc' = Returned (acc' ++ new)
         /\ forall p, p ∈ new <-> Q e p) ->
    exists new,
      fold_left (visit frames g d path depth) out (Returned acc)
      = Returned (acc ++ new)
      /\ forall p, p ∈ new <-> exists e, e ∈ out /\ Q e p.
Proof.
  induction out as [| e out IH]; intros acc Hstep.
  - exists []. simpl. rewrite app_nil_r. split; [reflexivity |].
    intros p. split; [intros H; now apply elem_of_nil in H |].
    intros (e & He & _). now apply elem_of_nil in He.
  - destruct (Hstep e acc) as (new1 & Hrun & Hnew1); [now left |].
    destruct (IH (acc ++ new1)) as (new2 & Hfold & Hnew2).
    { intros e' acc' He'. apply Hstep. now right. }
    exists (new1 ++ new2). rewrite visits_cons, Hrun, Hfold, app_assoc.
    split; [reflexivity |]. intros p. rewrite elem_of_app, Hnew1, Hnew2.
    split.
    + intros [HQ | (e' & He' & HQ)].
      * exists e. split; [now left | exact HQ].
      * exists e'. split; [now right | exact HQ].
    + intros (e' & He' & HQ). apply elem_of_cons in He' as [-> | He'].
      * now left.
      * right. now exists e'.
Qed.

(** With frames for the levels down to the bound, [dfs] returns, keeps what
    was recorded and adds exactly the terminal paths from [current] that fit
    under the bound, each prefixed with the path so far. *)
Lemma dfs_spec d : forall frames current path depth acc,
  (0 < frames)%nat ->
  d + 2 - depth <= Z.of_nat frames ->
  exists new,
    dfs frames g d current path depth acc = Returned (acc ++ new)
    /\ forall p,
         p ∈ new
         <-> exists q, p = path ++ q /\ terminal_path g current q
                       /\ depth + Z.of_nat (List.length q) <= d + 1.
Proof.
  induction frames as [| frames IH]; intros current path depth acc Hpos Hfr;
    [lia |].
  rewrite dfs_unfold. destruct (Z.gtb_spec depth d) as [Hdeep | Hfits].
  - exists []. rewrite app_nil_r. split; [reflexivity |].
    intros p. split; [intros H; now apply elem_of_nil in H |].
    intros (q & _ & Hq & Hlen). exfalso.
    destruct (terminal_path_head _ _ Hq) as [rest ->]. simpl in Hlen. lia.
  - destruct (outgoing g current) as [| e0 out0] eqn:Hout.
    + exists [path ++ [current]]. split; [reflexivity |].
      intros p. rewrite list_elem_of_singleton. split.
      * intros ->. exists [current]. split; [reflexivity |].
        split; [apply terminal_path_unfold; now left | simpl; lia].
      * intros (q & -> & Hq & _).
        apply terminal_path_unfold in Hq as [[-> _] | (b & q' & _ & Hlk & _)];
          [reflexivity |].
        apply linked_outgoing in Hlk as (e & He & _).
        rewrite Hout in He. now apply elem_of_nil in He.
    + rewrite <- Hout in *.
      destruct (dfs_fold frames d (path ++ [current]) (depth + 1)
                  (fun e p => exists q',
                       p = (path ++ [current]) ++ q'
                       /\ terminal_path g (target e) q'
                       /\ depth + 1 + Z.of_nat (List.length q') <= d + 1)
                  (outgoing g current) acc) as (new & Hfold & Hnew).
      { intros e acc' _. apply IH; lia. }
      exists new. split; [exact Hfold |].
      intros p. rewrite Hnew. split.
      * intros (e & He & q' & -> & Hq' & Hlen).
        exists (current :: q'). rewrite <- app_assoc.
        split; [reflexivity |]. split.
        -- apply terminal_path_unfold. right. exists (target e), q'.
           split; [reflexivity |]. split; [| exact Hq'].
           apply linked_outgoing. now exists e.
        -- simpl List.length. lia.
      * intros (q & -> & Hq & Hlen).
        apply terminal_path_unfold in Hq as [[_ Ht] | (b & q' & -> & Hlk & Hq')].
        -- unfold terminal in Ht. rewrite Ht in Hout. discriminate.
        -- apply linked_outgoing in Hlk as (e & He & <-).
           exists e. split; [exact He |]. exists q'.
           rewrite <- app_assoc. split; [reflexivity |].
           split; [exact Hq' |]. simpl List.length in Hlen. lia.
Qed.

(** A call that returned returns the same with one more frame. *)
Lemma dfs_one_more_frame d : forall frames current path depth acc r,
  dfs frames g d current path depth acc = Returned r ->
  dfs (S frames) g d current path depth acc = Returned r.
Proof.
  induction frames as [| frames IH]; intros current path depth acc r Hrun;
    [discriminate Hrun |].
  rewrite dfs_unfold in Hrun. rewrite dfs_unfold.
  destruct (depth >? d); [exact Hrun |].
  destruct (outgoing g current) as [| e0 out0]; [exact Hrun |].
  revert acc Hrun. generalize (e0 :: out0) as out.
  induction out as [| e out IHout]; intros acc Hrun; [exact Hrun |].
  rewrite visits_cons in *.
  destruct (dfs frames g d (target e) (path ++ [current]) (depth + 1) acc)
    as [a |] eqn:He.
  - rewrite (IH _ _ _ _ _ He). now apply IHout.
  - rewrite visits_after_error in Hrun. discriminate Hrun.
Qed.

Lemma dfs_more_frames d frames frames' current path depth acc r :
  (frames <= frames')%nat ->
  dfs frames g d current path depth acc = Returned r ->
  dfs frames' g d current path depth acc = Returned r.
Proof.
  induction 1 as [| frames' _ IH]; [trivial |].
  intros Hrun. now apply dfs_one_more_frame, IH.
Qed.

(** Whatever the frames, what [dfs] returns is what it returns with frames
    to spare. *)
Lemma dfs_returned d frames current path depth acc r :
  dfs frames g d current path depth acc = Returned r ->
  exists new,
    r = acc ++ new
    /\ forall p,
         p ∈ new
         <-> exists q, p = path ++ q /\ terminal_path g current q
                       /\ depth + Z.of_nat (List.length q) <= d + 1.
Proof.
  intros Hrun.
  assert (Hpos : (0 < frames)%nat) by (destruct frames; [discriminate Hrun | lia]).
  destruct (dfs_spec d (frames + Z.to_nat (d + 2 - depth)) current path depth acc)
    as (new & Hample & Hnew); [lia | lia |].
  exists new. split; [| exact Hnew].
  rewrite (dfs_more_frames d frames _ _ _ _ _ r) in Hample by (lia || exact Hrun).
  now injection Hample.
Qed.

(** A loop over the edges that returned has returned from every edge. *)
Lemma visits_returned frames d path depth : forall out acc r,
  fold_left (visit frames g d path depth) out (Returned acc) = Returned r ->
  forall e, e ∈ out ->
    exists acc' r', dfs frames g d (target e) path depth acc' = Returned r'.
Proof.
  induction out as [| e0 out IH]; intros acc r Hrun e He;
    [now apply elem_of_nil in He |].
  rewrite visits_cons in Hrun.
  destruct (dfs frames g d (target e0) path depth acc) as [a |] eqn:He0.
  - apply elem_of_cons in He as [-> | He]; [now exists acc, a |].
    now apply (IH a r).
  - rewrite visits_after_error in Hrun. discriminate Hrun.
Qed.

(** A call that returned had a frame for itself and for every call below
    it: one for every node of every walk from [current] that stays within
    one node of the bound. *)
Lemma dfs_needs_frames d : forall frames current path depth acc r,
  dfs frames g d current path depth acc = Returned r ->
  (0 < frames)%nat
  /\ forall q, walk g q -> head q = Some current ->
               depth + Z.of_nat (List.length q) <= d + 2 ->
               (List.length q <= frames)%nat.
Proof.
  induction frames as [| frames IH]; intros current path depth acc r Hrun;
    [discriminate Hrun |].
  split; [lia |]. intros q Hw Hh Hlen.
  destruct q as [| c q']; [simpl; lia |]. injection Hh as ->.
  destruct q' as [| b q'']; [simpl; lia |].
  simpl in Hw. destruct Hw as [Hlk Hw].
  rewrite dfs_unfold in Hrun.
  destruct (Z.gtb_spec depth d) as [Hdeep | Hfits];
    [simpl List.length in Hlen; lia |].
  apply linked_outgoing in Hlk as (e & He & Ht).
  destruct (outgoing g current) as [| e0 out0] eqn:Hout;
    [now apply elem_of_nil in He |].
  destruct (visits_returned _ _ _ _ _ _ _ Hrun e He) as (acc' & r' & Hsub).
  destruct (IH _ _ _ _ _ Hsub) as [_ Hbelow].
  specialize (Hbelow (b :: q'') Hw).
  simpl List.length in *. rewrite Ht in Hbelow.
  specialize (Hbelow eq_refl). lia.
Qed.

(** A loop over edges that all return, returns. *)
Lemma visits_return frames d path depth : forall out acc,
  (forall e acc', e ∈ out ->
     exists r, dfs frames g d (target e) path depth acc' = Returned r) ->
  exists r, fold_left (visit frames g d path depth) out (Returned acc) = Returned r.
Proof.
  induction out as [| e out IH]; intros acc Hall; [now exists acc |].
  destruct (Hall e acc) as [a Ha]; [now left |].
  rewrite visits_cons, Ha. apply IH.
  intros e' acc' He'. apply Hall. now right.
Qed.

Lemma walk_snoc w : forall a b,
  walk g w -> last w = Some a -> linked g a b ->
  walk g (w ++ [b]) /\ last (w ++ [b]) = Some b.
Proof.
  intros a b Hw Hl Hlk. split; [| apply last_snoc].
  induction w as [| x w IH]; [discriminate Hl |].
  destruct w as [| y w'].
  - injection Hl as ->. simpl. now split.
  - simpl in Hw. destruct Hw as [Hxy Hw].
    change (walk g (x :: (y :: w') ++ [b])). simpl. split; [exact Hxy |].
    apply IH; [exact Hw | exact Hl].
Qed.

(** Every node of a walk after the first is the target of an edge. *)
Lemma walk_targets p : forall a,
  walk g (a :: p) -> Forall (fun x => x ∈ map target (edges g)) p.
Proof.
  induction p as [| b r IH]; intros a Hw; [constructor |].
  simpl in Hw. destruct Hw as [(e & He & _ & Ht) Hw].
  constructor; [| now apply (IH b)].
  subst b. apply list_elem_of_fmap. now exists e.
Qed.

(** On an acyclic graph a walk has at most one node more than there are
    edges. *)
Lemma acyclic_walk_length p :
  acyclic g -> walk g p -> (List.length p <= S (List.length (edges g)))%nat.
Proof.
  intros Hacyc Hw. destruct p as [| a r]; [simpl; lia |].
  pose proof (Hacyc _ Hw) as Hnd. apply NoDup_cons in Hnd as [_ Hnd].
  pose proof (walk_targets _ _ Hw) as Hin. simpl.
  apply le_n_S. rewrite <- (length_map target (edges g)).
  apply submseteq_length, NoDup_submseteq; [exact Hnd |].
  now apply Forall_forall.
Qed.

(** On an acyclic graph [dfs] returns when it has a frame for every node a
    walk can still add, whatever the bound. *)
Lemma dfs_acyclic_returns d :
  acyclic g ->
  forall frames w current path depth acc,
    walk g w -> last w = Some current ->
    (List.length (edges g) + 2 <= frames + List.length w)%nat ->
    exists r, dfs frames g d current path depth acc = Returned r.
Proof.
  intros Hacyc. induction frames as [| frames IH];
    intros w current path depth acc Hw Hl Hfr.
  - pose proof (acyclic_walk_length w Hacyc Hw). lia.
  - rewrite dfs_unfold. destruct (depth >? d); [now exists acc |].
    destruct (outgoing g current) as [| e0 out0] eqn:Hout; [eauto |].
    rewrite <- Hout. apply visits_return. intros e acc' He.
    assert (Hlk : linked g current (target e))
      by (apply linked_outgoing; now exists e).
    destruct (walk_snoc w current (target e) Hw Hl Hlk) as [Hw' Hl'].
    apply (IH (w ++ [target e])); [exact Hw' | exact Hl' |].
    rewrite length_app. simpl. lia.
Qed.

(** C3 (amended): [find_execution_paths] ends for every graph, bound [d] and
    start node: it returns a list or, when [dfs] nests deeper than the
    interpreter allows, raises [RecursionError].  [d + 2] nested calls are
    always allowed for, and on an acyclic graph two more than the number of
    edges.  When it returns, the list holds exactly the terminal paths from
    the start node with at most [d + 1] nodes: each is a walk from the start
    node (the one given, or the entry point when none or the empty string is
    given) to a node without outgoing edges; a call of [dfs] beyond the bound
    records nothing; and on an acyclic graph with [d] at least the number of
    edges every terminal path from the start node is in the list.  A call
    that returned had a frame for every node of every walk it followed. *)
Theorem C3_find_execution_paths
    (frames : nat) (start_node : option string) (d : Z) :
  let start :=
    match start_node with
    | Some s => if String.eqb s EmptyString then entry_point g else s
    | None => entry_point g
    end in
  (forall paths,
      find_execution_paths frames g start_node d = Returned paths ->
      (forall p, p ∈ paths
                 <-> terminal_path g start p
                     /\ Z.of_nat (List.length p) <= d + 1)
      /\ (forall p, p ∈ paths ->
            head p = Some start
            /\ exists n, last p = Some n /\ outgoing g n = [])
      /\ (acyclic g ->
          Z.of_nat (List.length (edges g)) <= d ->
          forall p, terminal_path g start p -> p ∈ paths)
      /\ (0 < frames)%nat
      /\ (forall q, walk g q -> head q = Some start ->
                    Z.of_nat (List.length q) <= d + 2 ->
                    (List.length q <= frames)%nat))
  /\ (d + 2 <= Z.of_nat frames ->
      (0 < frames)%nat ->
      exists paths, find_execution_paths frames g start_node d = Returned paths)
  /\ (acyclic g ->
      (List.length (edges g) + 2 <= frames)%nat ->
      exists paths, find_execution_paths frames g start_node d = Returned paths)
  /\ (frames = 0%nat ->
      find_execution_paths frames g start_node d = RecursionError)
  /\ (forall fr current path depth recorded,
        d < depth ->
        dfs (S fr) g d current path depth recorded = Returned recorded).
Proof.
  intros start.
  assert (Hstart : start_of g start_node = start).
  { subst start. unfold start_of. destruct start_node as [s |]; simpl;
      [| reflexivity].
    now destruct (String.eqb s EmptyString). }
  unfold find_execution_paths. rewrite Hstart.
  split; [| split; [| split; [| split]]].
  - intros paths Hrun.
    destruct (dfs_returned _ _ _ _ _ _ _ Hrun) as (new & -> & Hnew).
    simpl app.
    assert (Hin : forall p, p ∈ new
                            <-> terminal_path g start p
                                /\ Z.of_nat (List.length p) <= d + 1).
    { intros p. rewrite Hnew. split.
      - intros (q & Hpq & Hq & Hlen). simpl in Hpq. subst p.
        split; [exact Hq | lia].
      - intros [Hq Hlen]. exists p. split; [reflexivity |].
        split; [exact Hq | lia]. }
    split; [exact Hin |]. split; [| split].
    + intros p Hp. apply Hin in Hp as [(Hh & _ & n & Hl & Hn) _].
      split; [exact Hh |]. now exists n.
    + intros Hacyc Hd p Hq. apply Hin. split; [exact Hq |].
      destruct Hq as (_ & Hw & _).
      pose proof (acyclic_walk_length p Hacyc Hw). lia.
    + destruct (dfs_needs_frames _ _ _ _ _ _ _ Hrun) as [Hpos Hfit].
      split; [exact Hpos |]. intros q Hw Hh Hlen. apply Hfit; [exact Hw | exact Hh | lia].
  - intros Hfr Hpos.
    destruct (dfs_spec d frames start [] 0 []) as (new & Hrun & _);
      [exact Hpos | lia |].
    now exists ([] ++ new).
  - intros Hacyc Hfr.
    apply (dfs_acyclic_returns d Hacyc frames [start]);
      [exact I | reflexivity | simpl; lia].
  - intros ->. reflexivity.
  - intros fr current path depth recorded Hdeep. rewrite dfs_unfold.
    destruct (Z.gtb_spec depth d); [reflexivity | lia].
Qed.

End PathFacts.

Lemma demo_graph_acyclic : Visualizer.acyclic demo_graph.
Proof.
  assert (Hlk : forall a b, Visualizer.linked demo_graph a b ->
                            (a = "A" /\ b = "B") \/ (a = "B" /\ b = "C")).
  { intros a b (e & He & <- & <-). simpl in He.
    apply elem_of_cons in He as [-> | He]; [now left |].
    apply list_elem_of_singleton in He as ->. now right. }
  intros p Hw.
  destruct p as [| a [| b [| c [| x r]]]]; simpl in Hw.
  - constructor.
  - apply NoDup_singleton.
  - destruct Hw as [H1 _]. apply Hlk in H1 as [[-> ->] | [-> ->]];
      apply NoDup_cons; (split; [| apply NoDup_singleton]);
      intros H; apply list_elem_of_singleton in H; discriminate.
  - destruct Hw as [H1 [H2 _]].
    apply Hlk in H1 as [[-> ->] | [-> ->]];
      apply Hlk in H2 as [[E ->] | [E ->]]; try discriminate E.
    apply NoDup_cons. split.
    + rewrite !elem_of_cons, elem_of_nil. intros [F | [F | []]]; discriminate F.
    + apply NoDup_cons. split; [| apply NoDup_singleton].
      intros F; apply list_elem_of_singleton in F; discriminate F.
  - destruct Hw as [H1 [H2 [H3 _]]].
    apply Hlk in H1 as [[-> ->] | [-> ->]];
      apply Hlk in H2 as [[E ->] | [E ->]]; try discriminate E.
    apply Hlk in H3 as [[F _] | [F _]]; discriminate F.
Qed.

Lemma C3_find_execution_paths_witness :
  Visualizer.acyclic demo_graph
  /\ Visualizer.terminal_path demo_graph "B" ["B"; "C"]
  /\ (exists paths,
        Visualizer.find_execution_paths 4 demo_graph (Some "B") 2
        = Visualizer.Returned paths
        /\ ["B"; "C"] ∈ paths
        /\ ["A"; "B"; "C"] ∉ paths)
  /\ (exists paths,
        Visualizer.find_execution_paths 4 demo_graph None 1000000
        = Visualizer.Returned paths
        /\ ["A"; "B"; "C"] ∈ paths).
Proof.
  assert (Hp : Visualizer.terminal_path demo_graph "B" ["B"; "C"]).
  { split; [reflexivity |]. split.
    - simpl. split; [| exact I].
      eexists. split; [apply list_elem_of_further, list_elem_of_here |].
      now split.
    - exists "C". split; reflexivity. }
  assert (Hq : Visualizer.terminal_path demo_graph "A" ["A"; "B"; "C"]).
  { split; [reflexivity |]. split.
    - simpl. split; [| split; [| exact I]].
      + eexists. split; [apply list_elem_of_here |]. now split.
      + eexists. split; [apply list_elem_of_further, list_elem_of_here |].
        now split.
    - exists "C". split; reflexivity. }
  split; [exact demo_graph_acyclic |]. split; [exact Hp |]. split.
  - destruct (C3_find_execution_paths demo_graph 4 (Some "B") 2)
      as (Hret & Hample & _).
    destruct Hample as [paths Hrun]; [simpl; lia | lia |].
    exists paths. split; [exact Hrun |].
    destruct (Hret paths Hrun) as (Hin & Hends & _).
    split.
    + apply Hin. split; [exact Hp | simpl; lia].
    + intros Hbad. apply Hends in Hbad as [Hh _]. discriminate Hh.
  - destruct (C3_find_execution_paths demo_graph 4 None 1000000)
      as (Hret & _ & Hacyc & _).
    destruct (Hacyc demo_graph_acyclic) as [paths Hrun]; [simpl; lia |].
    exists paths. split; [exact Hrun |].
    destruct (Hret paths Hrun) as (_ & _ & Hall & _).
    apply Hall; [exact demo_graph_acyclic | simpl; lia | exact Hq].
Defined.

(** On the one-node loop with bound 2000, where the interpreter allows 1000
    nested calls, [find_execution_paths] raises [RecursionError] and returns
    no list; with bound 900 it returns the empty list. *)
Lemma C3_recursion_limit_cuts_in :
  Visualizer.find_execution_paths 1000 demo_loop None 2000
  = Visualizer.RecursionError
  /\ (forall paths,
        Visualizer.find_execution_paths 1000 demo_loop None 2000
        <> Visualizer.Returned paths)
  /\ Visualizer.find_execution_paths 1000 demo_loop None 900
     = Visualizer.Returned [].
Proof.
  assert (H : Visualizer.find_execution_paths 1000 demo_loop None 2000
              = Visualizer.RecursionError) by (vm_compute; reflexivity).
  split; [exact H |]. split; [intros paths; rewrite H; discriminate |].
  vm_compute. reflexivity.
Qed.

(** On the graph with the cycle [A -> B -> A], bound 4 gives the terminal
    paths of three and five nodes and nothing longer; bound 1 is too small
    for any; a negative bound abandons the start node itself. *)
Example find_execution_paths_on_cycle :
  Visualizer.find_execution_paths 10 demo_cyclic None 4
  = Visualizer.Returned [["A"; "B"; "C"]; ["A"; "B"; "A"; "B"; "C"]]
  /\ Visualizer.find_execution_paths 10 demo_cyclic None 1 = Visualizer.Returned []
  /\ Visualizer.find_execution_paths 10 demo_cyclic (Some "C") (-1)
     = Visualizer.Returned [].
Proof. vm_compute. repeat split. Qed.

(** ** The breakpoint table *)

Section BreakpointFacts.
Import Debugger AgentDebugger.

(** X1: the identity of a breakpoint determines its event kind and target:
    two [set_breakpoint] calls share a table entry only when they name the
    same pair, so setting one pair never touches the breakpoint of
    another. *)
Theorem X1_bp_id_injective (ty1 ty2 : BreakpointType) (t1 t2 : string) :
  (bp_id ty1 t1 = bp_id ty2 t2 -> ty1 = ty2 /\ t1 = t2)
  /\ (forall bps cond,
        (ty1, t1) <> (ty2, t2) ->
        snd (set_breakpoint bps t1 ty1 cond) !! bp_id ty2 t2
        = bps !! bp_id ty2 t2).
Proof.
  assert (Hinj : bp_id ty1 t1 = bp_id ty2 t2 -> ty1 = ty2 /\ t1 = t2).
  { unfold bp_id. destruct ty1, ty2; simpl; intros H;
      try discriminate H; now inversion H. }
  split; [exact Hinj |].
  intros bps cond Hne. simpl. apply lookup_insert_ne.
  intros Heq. apply Hinj in Heq as [-> ->]. now apply Hne.
Qed.

(** X2: setting a breakpoint on a pair that already has one keeps the table
    at one entry for the pair: the size and the identities are unchanged,
    the entry is the new definition, enabled and with its hit counter back
    at 0, and every other entry is as before.  On a new pair the table grows
    by one. *)
Theorem X2_set_breakpoint_replaces
    (bps : gmap string Breakpoint) (tgt : string) (ty : BreakpointType)
    (cond : option string) :
  let bps' := snd (set_breakpoint bps tgt ty cond) in
  bps' !! bp_id ty tgt
  = Some (mkBreakpoint (bp_id ty tgt) ty tgt cond true 0)
  /\ (forall i, i <> bp_id ty tgt -> bps' !! i = bps !! i)
  /\ (is_Some (bps !! bp_id ty tgt) -> size bps' = size bps /\ dom bps' = dom bps)
  /\ (bps !! bp_id ty tgt = None -> size bps' = S (size bps))
  /\ snd (set_breakpoint bps' tgt ty cond) = bps'.
Proof.
  simpl. split; [apply lookup_insert_eq |].
  split; [intros i Hi; now apply lookup_insert_ne |].
  split; [| split].
  - intros [old Hold]. split.
    + rewrite <- (insert_delete_id bps _ _ Hold) at 2.
      rewrite <- (insert_delete_eq bps).
      rewrite !map_size_insert_None by apply lookup_delete_eq. reflexivity.
    + rewrite dom_insert_L. apply subseteq_union_1_L, singleton_subseteq_l.
      exact (elem_of_dom_2 _ _ _ Hold).
  - intros Hnone. now apply map_size_insert_None.
  - apply insert_insert_eq.
Qed.

(** X3: [remove_breakpoint] answers whether the identity was in the table;
    afterwards the identity has no entry, [_should_break] on its pair
    returns false, and every other entry is as before.  Removing a
    breakpoint that was set on a table without it gives the table back. *)
Theorem X3_remove_breakpoint {Ctx : Type} (eval : string -> Ctx -> eval_outcome)
    (bps : gmap string Breakpoint) (ty : BreakpointType) (tgt : string)
    (context : Ctx) :
  let r := remove_breakpoint bps (bp_id ty tgt) in
  (fst r = true <-> is_Some (bps !! bp_id ty tgt))
  /\ snd r !! bp_id ty tgt = None
  /\ (forall i, i <> bp_id ty tgt -> snd r !! i = bps !! i)
  /\ _should_break eval (snd r) ty tgt context = Returns (false, snd r)
  /\ (forall cond,
        bps !! bp_id ty tgt = None ->
        remove_breakpoint (snd (set_breakpoint bps tgt ty cond)) (bp_id ty tgt)
        = (true, bps)).
Proof.
  unfold remove_breakpoint.
  assert (Hgone : (match bps !! bp_id ty tgt with
                   | Some _ => (true, delete (bp_id ty tgt) bps)
                   | None => (false, bps)
                   end).2 !! bp_id ty tgt = None).
  { destruct (bps !! bp_id ty tgt) eqn:Hl; simpl;
      [apply lookup_delete_eq | exact Hl]. }
  split; [| split; [exact Hgone | split; [| split]]].
  - destruct (bps !! bp_id ty tgt); simpl; split; intros H;
      try reflexivity; try discriminate H; eauto. now destruct H.
  - intros i Hi. destruct (bps !! bp_id ty tgt); simpl;
      [now apply lookup_delete_ne | reflexivity].
  - unfold _should_break. now rewrite Hgone.
  - intros cond Hnone. simpl. rewrite lookup_insert_eq.
    rewrite delete_insert_eq. f_equal. now apply delete_id.
Qed.



End BreakpointFacts.

(** ** Reset *)

Section SessionFacts.
Import Debugger AgentDebugger.
Context {Ctx Entry : Type}.
Variable empty_context : Ctx.

(** X5: [reset] keeps every breakpoint with its identity, kind, target,
    condition and enabled flag and puts its hit counter at 0; it replaces the
    state by a new one and empties the trace history; it leaves the step
    mode and the interactive flag as they were.  Resetting twice is
    resetting once. *)
Theorem X5_reset_keeps_definitions (d : t (Ctx := Ctx) (Entry := Entry)) :
  let d' := reset empty_context d in
  dom (breakpoints d') = dom (breakpoints d)
  /\ (forall i bp,
        breakpoints d !! i = Some bp ->
        exists bp', breakpoints d' !! i = Some bp'
                    /\ id bp' = id bp /\ breakpoint_type bp' = breakpoint_type bp
                    /\ target bp' = target bp /\ condition bp' = condition bp
                    /\ enabled bp' = enabled bp /\ hit_count bp' = 0)
  /\ state d' = new_state empty_context
  /\ trace_history d' = []
  /\ step_mode d' = step_mode d
  /\ interactive d' = interactive d
  /\ reset empty_context d' = d'.
Proof.
  simpl. split; [apply dom_fmap_L |]. split.
  - intros i bp Hbp. exists (zero_hits bp). rewrite lookup_fmap, Hbp.
    repeat split.
  - repeat split. unfold reset. simpl. f_equal.
    rewrite <- map_fmap_compose. apply map_fmap_ext. now intros i [].
Qed.

End SessionFacts.

Lemma X1_bp_id_injective_witness :
  (Debugger.NODE_ENTER, "B") <> (Debugger.NODE_EXIT, "B")
  /\ snd (Debugger.set_breakpoint demo_breakpoints "B" Debugger.NODE_ENTER
            (Some "context['n'] > 3")) !! "node_exit:B"
     = demo_breakpoints !! "node_exit:B".
Proof.
  assert (Hne : (Debugger.NODE_ENTER, "B") <> (Debugger.NODE_EXIT, "B"))
    by discriminate.
  split; [exact Hne |].
  destruct (X1_bp_id_injective Debugger.NODE_ENTER Debugger.NODE_EXIT "B" "B")
    as (_ & Hframe).
  exact (Hframe demo_breakpoints (Some "context['n'] > 3") Hne).
Defined.

Lemma X2_set_breakpoint_replaces_witness :
  is_Some (demo_breakpoints !! "node_enter:B")
  /\ size (snd (Debugger.set_breakpoint demo_breakpoints "B" Debugger.NODE_ENTER None))
     = size demo_breakpoints
  /\ Debugger.hits
       (snd (Debugger.set_breakpoint demo_breakpoints "B" Debugger.NODE_ENTER None))
       "node_enter:B"
     = Some 0.
Proof.
  assert (Hin : is_Some (demo_breakpoints !! "node_enter:B"))
    by (vm_compute; eauto).
  split; [exact Hin |].
  destruct (X2_set_breakpoint_replaces demo_breakpoints "B" Debugger.NODE_ENTER None)
    as (Hnew & _ & Hsame & _).
  split; [exact (proj1 (Hsame Hin)) |].
  unfold Debugger.hits.
  change "node_enter:B" with (Debugger.bp_id Debugger.NODE_ENTER "B").
  now rewrite Hnew.
Defined.

Lemma X3_remove_breakpoint_witness :
  demo_breakpoints !! "node_enter:C" = None
  /\ AgentDebugger.remove_breakpoint
       (snd (Debugger.set_breakpoint demo_breakpoints "C" Debugger.NODE_ENTER None))
       "node_enter:C"
     = (true, demo_breakpoints).
Proof.
  assert (Hnone : demo_breakpoints !! "node_enter:C" = None)
    by (vm_compute; reflexivity).
  split; [exact Hnone |].
  destruct (X3_remove_breakpoint (fun _ (_ : unit) => Debugger.Truthy)
              demo_breakpoints Debugger.NODE_ENTER "C" tt)
    as (_ & _ & _ & _ & Hround).
  exact (Hround None Hnone).
Defined.


Lemma X5_reset_keeps_definitions_witness :
  demo_breakpoints !! "node_enter:B"
  = Some (Debugger.mkBreakpoint "node_enter:B" Debugger.NODE_ENTER "B" None true 4)
  /\ Debugger.hits
       (AgentDebugger.breakpoints (AgentDebugger.reset [] demo_debugger))
       "node_enter:B"
     = Some 0.
Proof.
  assert (Hbp : demo_breakpoints !! "node_enter:B"
                = Some (Debugger.mkBreakpoint "node_enter:B" Debugger.NODE_ENTER
                          "B" None true 4))
    by (vm_compute; reflexivity).
  split; [exact Hbp |].
  destruct (X5_reset_keeps_definitions [] demo_debugger) as (_ & Hkeep & _).
  destruct (Hkeep _ _ Hbp) as (bp' & Hl & _ & _ & _ & _ & _ & Hzero).
  unfold Debugger.hits. rewrite Hl. simpl. now rewrite Hzero.
Defined.
